(** * PartitionORAM: the block codec and bucket/stash utilities

    A shallow embedding of [src/base/oram_utils.cc] (namespace
    [oram_utils]) and of the flat server storage of the square-root ORAM
    ([SqrtOramServerStorage]), with the properties of the design document
    stated over it. *)

From Stdlib Require Import ZArith Lia.
From Stdlib Require Import Strings.Byte.
From stdpp Require Import base list strings gmap.

Local Open Scope N_scope.

Abbreviation byte := Byte.byte.

#[global] Instance byte_eq_decision : EqDecision byte := Byte.byte_eq_dec.

(** ** Outcomes of a call

    A call returns, or the process is ended by [abort()] after a message
    was logged, or the call leaves the defined behaviour of C++ (a copy
    past the end of a buffer). *)

Inductive outcome (A : Type) : Type :=
| Ret (a : A)
| Abort (msg : string)
| Undefined.

Arguments Ret {A} a.
Arguments Abort {A} msg.
Arguments Undefined {A}.

Definition obind {A B : Type} (m : outcome A) (k : A -> outcome B) : outcome B :=
  match m with
  | Ret a => k a
  | Abort msg => Abort msg
  | Undefined => Undefined
  end.

(** Functions that draw from the random source thread its state [R]. *)
Definition M (R A : Type) : Type := R -> outcome (A * R).

Definition ret {R A : Type} (a : A) : M R A := fun r => Ret (a, r).

Definition bind {R A B : Type} (m : M R A) (k : A -> M R B) : M R B :=
  fun r => obind (m r) (fun ar => k (fst ar) (snd ar)).

Definition abort {R A : Type} (msg : string) : M R A := fun _ => Abort msg.

Definition undefined {R A : Type} : M R A := fun _ => Undefined.

(** A call that cannot fail by itself, and a call that uses no randomness. *)
Definition call {R A : Type} (f : R -> A * R) : M R A := fun r => Ret (f r).

Definition lift {R A : Type} (m : outcome A) : M R A :=
  fun r => obind m (fun a => Ret (a, r)).

Notation "'let*' x ':=' m 'in' k" := (bind m (fun x => k))
  (at level 10, x name, m at level 100, k at level 200, only parsing).
Notation "'let*' ' p ':=' m 'in' k" :=
  (bind m (fun x => match x with p => k end))
  (at level 10, p pattern, m at level 100, k at level 200, only parsing).

(** The index loop [for (size_t i = a; i < a + n; ++i) body]. *)
Fixpoint for_loop {R S : Type} (n : nat) (i : nat)
    (body : nat -> S -> M R S) (s : S) : M R S :=
  match n with
  | O => ret s
  | Datatypes.S n' => bind (body i s) (for_loop n' (Datatypes.S i) body)
  end.

(** ** Machine integers and raw memory *)

(** Unsigned quantities ([size_t], [uint32_t], [uint8_t]) are numbers of
    [N] with the wrap-around written out; [int] is a number of [Z]. *)
Definition to_size_t (n : N) : N := n mod 2 ^ 64.
Definition to_uint32 (n : N) : N := n mod 2 ^ 32.

Definition byte_of_N (n : N) : byte :=
  match Byte.of_N (n mod 256) with
  | Some b => b
  | None => Byte.x00
  end.

(** The bytes of an unsigned integer of [n] bytes, least significant
    first, and back. *)
Fixpoint uint_to_bytes (n : nat) (z : N) : list byte :=
  match n with
  | O => []
  | S n' => byte_of_N z :: uint_to_bytes n' (z / 256)
  end.

Fixpoint uint_of_bytes (bs : list byte) : N :=
  match bs with
  | [] => 0
  | b :: bs' => Byte.to_N b + 256 * uint_of_bytes bs'
  end.

(** [memcpy(dst + off, src, n)] seen from [dst]: [n] bytes from offset
    [off] on are replaced by the first [n] bytes of [src]. *)
Definition memcpy_at (dst : list byte) (off : nat) (src : list byte)
    (n : nat) : list byte :=
  take off dst ++ take n src ++ drop (off + n) dst.

Definition memcpy (dst src : list byte) (n : nat) : list byte :=
  memcpy_at dst 0 src n.

(** ** The data model ([oram_defs.h], not among the sources) *)

(** Modelled from the spec: the status codes of [partition_oram::Status];
    only [kOK] is named by the sources, every other code is a failure. *)
Inductive Status : Type :=
| kOK
| kFailure (code : nat).

#[global] Instance Status_eq_decision : EqDecision Status.
Proof. solve_decision. Defined.

(** Modelled from the spec: the block structure.  The design document
    gives the header as [block_id] (unsigned integer, taken as
    [uint32_t]), [type] (1-byte enum), [iv] (12 bytes), [mac_tag]
    (16 bytes), followed by [data] ([DEFAULT_ORAM_DATA_SIZE] bytes).  The
    [type] field holds the raw byte of the enum, since the sources also
    fill it from raw memory. *)
Record oram_block_header_t : Type := {
  block_id : N;
  type : byte;
  iv : list byte;
  mac_tag : list byte
}.

Record oram_block_t : Type := {
  header : oram_block_header_t;
  data : list byte
}.

Abbreviation p_oram_bucket_t := (list oram_block_t).
Abbreviation p_oram_stash_t := (list oram_block_t).

(** Modelled from the spec: the constants of [oram_defs.h] that the
    sources use but do not define: the payload size and the two
    enumerators of [BlockType]. *)
Record oram_defs : Type := {
  DEFAULT_ORAM_DATA_SIZE : nat;
  kNormal : byte;
  kDummy : byte
}.

(** What the C++ types guarantee of a block. *)
Record block_wf (defs : oram_defs) (b : oram_block_t) : Prop := {
  wf_block_id : block_id (header b) < 2 ^ 32;
  wf_iv : length (iv (header b)) = 12%nat;
  wf_mac_tag : length (mac_tag (header b)) = 16%nat;
  wf_data : length (data b) = DEFAULT_ORAM_DATA_SIZE defs
}.

Definition set_block_id (b : oram_block_t) (v : N) : oram_block_t :=
  {| header := {| block_id := v; type := type (header b);
                  iv := iv (header b); mac_tag := mac_tag (header b) |};
     data := data b |}.

Definition set_type (b : oram_block_t) (v : byte) : oram_block_t :=
  {| header := {| block_id := block_id (header b); type := v;
                  iv := iv (header b); mac_tag := mac_tag (header b) |};
     data := data b |}.

Definition set_iv (b : oram_block_t) (v : list byte) : oram_block_t :=
  {| header := {| block_id := block_id (header b); type := type (header b);
                  iv := v; mac_tag := mac_tag (header b) |};
     data := data b |}.

Definition set_mac_tag (b : oram_block_t) (v : list byte) : oram_block_t :=
  {| header := {| block_id := block_id (header b); type := type (header b);
                  iv := iv (header b); mac_tag := v |};
     data := data b |}.

Definition set_data (b : oram_block_t) (v : list byte) : oram_block_t :=
  {| header := header b; data := v |}.

(** Modelled from the spec: [ORAM_BLOCK_SIZE], the size of the block
    structure: the header fields in their order, then the payload. *)
Definition HEADER_SIZE : nat := 4 + 1 + 12 + 16.
Definition ORAM_BLOCK_SIZE (defs : oram_defs) : nat :=
  (HEADER_SIZE + DEFAULT_ORAM_DATA_SIZE defs)%nat.

(** The object representation of a block, which [memcpy] and
    [RandomBytes] read and write through the pointer casts. *)
Definition block_bytes (b : oram_block_t) : list byte :=
  uint_to_bytes 4 (block_id (header b)) ++ [type (header b)]
    ++ iv (header b) ++ mac_tag (header b) ++ data b.

Definition block_of_bytes (defs : oram_defs) (bs : list byte) : oram_block_t :=
  {| header := {| block_id := uint_of_bytes (take 4 bs);
                  type := nth 4 bs Byte.x00;
                  iv := take 12 (drop 5 bs);
                  mac_tag := take 16 (drop 17 bs) |};
     data := take (DEFAULT_ORAM_DATA_SIZE defs) (drop 33 bs) |}.

(** Modelled from the spec: the cryptographic provider
    [oram_crypto::Cryptor] ([oram_crypto.h], not among the sources), by
    its contract [RandomBytes(buffer, length) -> Status],
    [Encrypt(plaintext, length, iv) -> ciphertext || tag],
    [Decrypt(ciphertext || tag, length, iv) -> plaintext] and
    [RandomShuffle(sequence) -> Status].  [R] is the state of the random
    source; each call gives its status and what it wrote. *)
Record Cryptor (R : Type) : Type := {
  RandomBytes : nat -> R -> (Status * list byte) * R;
  RandomShuffle : list oram_block_t -> R -> (Status * list oram_block_t) * R;
  Encrypt : list byte -> nat -> list byte -> Status * list byte;
  Decrypt : list byte -> nat -> list byte -> Status * list byte
}.

Arguments RandomBytes {R} _ _ _.
Arguments RandomShuffle {R} _ _ _.
Arguments Encrypt {R} _ _ _ _.
Arguments Decrypt {R} _ _ _ _.

(** Modelled from the spec: the macro [PANIC_IF(cond, msg)], a fatal
    precondition check: it logs [msg] and aborts when [cond] holds. *)
Definition PANIC_IF {A : Type} (cond : bool) (msg : string)
    (k : outcome A) : outcome A :=
  if cond then Abort msg else k.

(** ** Serialization *)

Section Serialization.
Variable defs : oram_defs.

Definition ConvertToBlock (data : list byte) (block : oram_block_t)
    : outcome oram_block_t :=
  PANIC_IF (negb (bool_decide (length data = ORAM_BLOCK_SIZE defs)))
           "Invalid data size"
    (Ret (block_of_bytes defs
            (memcpy (block_bytes block) data (ORAM_BLOCK_SIZE defs)))).

Definition ConvertToString (block : oram_block_t) (data : list byte)
    : list byte :=
  let data := resize (ORAM_BLOCK_SIZE defs) Byte.x00 data in
  memcpy data (block_bytes block) (ORAM_BLOCK_SIZE defs).

(** The loop of [SerializeToStringVector]: [ans] collects one string for
    each block, each written into a fresh empty [std::string]. *)
Fixpoint serialize_loop (bucket : p_oram_bucket_t)
    (ans : list (list byte)) : list (list byte) :=
  match bucket with
  | [] => ans
  | block :: rest => serialize_loop rest (ans ++ [ConvertToString block []])
  end.

Definition SerializeToStringVector (bucket : p_oram_bucket_t)
    : list (list byte) :=
  serialize_loop bucket [].

(** The loop of [DeserializeFromStringVector].  The local [block] is not
    initialised before [ConvertToBlock] overwrites it; [uninit] stands
    for what it holds. *)
Fixpoint deserialize_loop (uninit : oram_block_t) (data : list (list byte))
    (ans : p_oram_bucket_t) : outcome p_oram_bucket_t :=
  match data with
  | [] => Ret ans
  | d :: rest =>
      obind (ConvertToBlock d uninit)
            (fun block => deserialize_loop uninit rest (ans ++ [block]))
  end.

Definition DeserializeFromStringVector (uninit : oram_block_t)
    (data : list (list byte)) : outcome p_oram_bucket_t :=
  deserialize_loop uninit data [].

End Serialization.

(** ** Status checks, stash padding and bucket sampling *)

Definition CheckStatus (status : Status) (reason : string) : outcome unit :=
  if bool_decide (status = kOK) then Ret tt else Abort reason.

Section Utilities.
Context {R : Type}.
Variable defs : oram_defs.
Variable cryptor : Cryptor R.

(** One round of the loop of [PadStash]: the whole of the local [dummy]
    is filled by [RandomBytes], header included. *)
Definition PadStash_body (uninit : oram_block_t) (i : nat)
    (stash : p_oram_stash_t) : M R p_oram_stash_t :=
  let dummy := uninit in
  let* '(status, bytes) :=
    call (RandomBytes cryptor (ORAM_BLOCK_SIZE defs)) in
  let dummy :=
    block_of_bytes defs
      (memcpy (block_bytes dummy) bytes (ORAM_BLOCK_SIZE defs)) in
  if negb (bool_decide (status = kOK))
  then abort "Failed to generate random bytes"
  else ret (stash ++ [dummy]).

Definition PadStash (uninit : oram_block_t) (stash : p_oram_stash_t)
    (bucket_size : nat) : M R p_oram_stash_t :=
  let stash_size := length stash in
  if (stash_size <? bucket_size)%nat
  then for_loop (bucket_size - stash_size) stash_size
         (PadStash_body uninit) stash
  else ret stash.

(** One round of the loop of [SampleRandomBucket]; [size] is already
    halved. *)
Definition SampleRandomBucket_body (uninit : oram_block_t)
    (size initial_offset : N) (i : nat) (bucket : p_oram_bucket_t)
    : M R p_oram_bucket_t :=
  let block := uninit in
  let block :=
    set_block_id block (to_uint32 (to_size_t (N.of_nat i + initial_offset))) in
  let block :=
    set_type block
      (if N.of_nat i <? size then kNormal defs else kDummy defs) in
  let block :=
    set_data block
      (<[0%nat := byte_of_N (to_size_t (N.of_nat i + initial_offset))]>
         (data block)) in
  let* '(status, bytes) :=
    call (RandomBytes cryptor (DEFAULT_ORAM_DATA_SIZE defs - 1)) in
  let block :=
    set_data block
      (memcpy_at (data block) 1 bytes (DEFAULT_ORAM_DATA_SIZE defs - 1)) in
  if negb (bool_decide (status = kOK))
  then abort "Failed to generate random bytes"
  else ret (bucket ++ [block]).

Definition SampleRandomBucket (uninit : oram_block_t)
    (size tree_size initial_offset : N) : M R p_oram_bucket_t :=
  let size := N.shiftr size 1 in
  let bucket := [] in
  let* bucket :=
    for_loop (N.to_nat tree_size) 0
      (SampleRandomBucket_body uninit size initial_offset) bucket in
  let* '(status, bucket) := call (RandomShuffle cryptor bucket) in
  lift (PANIC_IF (negb (bool_decide (status = kOK)))
          "Random shuffle failed due to internal error."
          (Ret bucket)).

(** ** The block codec *)

Definition EncryptBlock (block : oram_block_t) : M R oram_block_t :=
  if negb (bool_decide (type (header block) = kNormal defs))
  then ret block
  else
    let* '(status, bytes) := call (RandomBytes cryptor 12) in
    let block := set_iv block (memcpy (iv (header block)) bytes 12) in
    let* _ := lift (CheckStatus status "Failed to generate iv!") in
    let '(status, enc) :=
      Encrypt cryptor (data block) (DEFAULT_ORAM_DATA_SIZE defs)
        (iv (header block)) in
    let* _ := lift (CheckStatus status "Failed to encrypt data!") in
    if (length enc <? 16)%nat then undefined
    else
      let block :=
        set_mac_tag block
          (memcpy (mac_tag (header block)) (drop (length enc - 16) enc) 16) in
      if (DEFAULT_ORAM_DATA_SIZE defs <? length enc - 16)%nat then undefined
      else
        let block :=
          set_data block (memcpy (data block) enc (length enc - 16)) in
        ret block.

Definition DecryptBlock (block : oram_block_t) : outcome oram_block_t :=
  if negb (bool_decide (type (header block) = kNormal defs))
  then Ret block
  else
    (* the [malloc]ed buffer, overwritten whole by the two copies *)
    let enc_data := replicate (DEFAULT_ORAM_DATA_SIZE defs + 16) Byte.x00 in
    let enc_data :=
      memcpy enc_data (data block) (DEFAULT_ORAM_DATA_SIZE defs) in
    let enc_data :=
      memcpy_at enc_data (DEFAULT_ORAM_DATA_SIZE defs)
        (mac_tag (header block)) 16 in
    let '(status, dec) :=
      Decrypt cryptor enc_data (DEFAULT_ORAM_DATA_SIZE defs + 16)
        (iv (header block)) in
    obind (CheckStatus status "Failed to decrypt data!") (fun _ =>
    if (DEFAULT_ORAM_DATA_SIZE defs <? length dec)%nat then Undefined
    else
      let block := set_data block (memcpy (data block) dec (length dec)) in
      Ret block).

End Utilities.

(** The number of blocks of a bucket that carry the type [t]. *)
Definition count_type (t : byte) (bucket : p_oram_bucket_t) : nat :=
  length (filter (fun b => type (header b) = t) bucket).

(** ** The compression adapter *)

(** Conversions between [size_t] and [int], as at the LZ4 calls. *)
Definition to_int (n : N) : Z := ((Z.of_N n + 2 ^ 31) mod 2 ^ 32 - 2 ^ 31)%Z.
Definition size_t_of_int (z : Z) : N := Z.to_N (z mod 2 ^ 64)%Z.

(** The LZ4 library ([lz4.h], a third-party library).
    [LZ4_compressBound] is the macro of [lz4.h]; the compressor and the
    decompressor are taken by their documented behaviour: a call gives
    the [int] it returns and the bytes it wrote to the destination. *)
Definition LZ4_MAX_INPUT_SIZE : Z := 2113929216.

Definition LZ4_compressBound (isize : Z) : Z :=
  (if (isize <? 0) || (LZ4_MAX_INPUT_SIZE <? isize) then 0
   else isize + isize / 255 + 16)%Z.

Record LZ4 : Type := {
  LZ4_compress_default : list byte -> Z -> Z -> Z * list byte;
  LZ4_decompress_safe : list byte -> Z -> Z -> Z * list byte
}.

(** What [lz4.h] documents: compression succeeds when the destination
    has [LZ4_compressBound(srcSize)] bytes and returns the number of bytes
    written, at least one; decompression of that block returns the number
    of bytes decompressed, the original ones, when the destination can
    hold them, and otherwise stops with a negative error code, having
    written no more than the capacity. *)
Definition LZ4_contract (lz4 : LZ4) : Prop :=
  forall (src : list byte) (cap : Z),
    (Z.of_nat (length src) <= LZ4_MAX_INPUT_SIZE)%Z ->
    (LZ4_compressBound (Z.of_nat (length src)) <= cap)%Z ->
    exists z : list byte,
      LZ4_compress_default lz4 src (Z.of_nat (length src)) cap
        = (Z.of_nat (length z), z)
      /\ (0 < length z)%nat
      /\ (Z.of_nat (length z) <= LZ4_compressBound (Z.of_nat (length src)))%Z
      /\ forall cap' : Z,
           if (Z.of_nat (length src) <=? cap')%Z
           then LZ4_decompress_safe lz4 z (Z.of_nat (length z)) cap'
                  = (Z.of_nat (length src), src)
           else exists e out,
                  LZ4_decompress_safe lz4 z (Z.of_nat (length z)) cap'
                    = (e, out)
                  /\ (- 2 ^ 31 <= e < 0)%Z
                  /\ (Z.of_nat (length out) <= Z.max 0 cap')%Z.

Section Compression.
Variable lz4 : LZ4.

Definition DataCompress (data : list byte) (data_size : N)
    : outcome (N * list byte) :=
  let max_allowed_size :=
    size_t_of_int (LZ4_compressBound (to_int data_size)) in
  let '(r, out) :=
    LZ4_compress_default lz4 data (to_int data_size)
      (to_int max_allowed_size) in
  let compressed_size := size_t_of_int r in
  if compressed_size =? 0 then Abort "Failed to compress data!"
  else Ret (compressed_size, out).

Definition DataDecompress (data : list byte) (data_size : N)
    : outcome (N * list byte) :=
  let max_allowed_size := to_size_t (data_size * 2) in
  let '(r, out) :=
    LZ4_decompress_safe lz4 data (to_int data_size)
      (to_int max_allowed_size) in
  let decompressed_size := size_t_of_int r in
  if decompressed_size =? 0 then Abort "Failed to decompress data!"
  else Ret (decompressed_size, out).

End Compression.

(** ** The flat server storage of the square-root ORAM *)

Module oram_impl.

Inductive OramStorageType : Type :=
| kFlatStorage
| kTreeStorage.

(** Modelled from the spec: the members of the base class
    [BaseOramServerStorage] ([base_oram_storage.h], not among the
    sources), as its constructor receives them. *)
Record BaseOramServerStorage : Type := {
  id_ : N;
  capacity_ : N;
  block_size_ : N;
  instance_hash_ : string;
  storage_type_ : OramStorageType
}.

Record SqrtOramServerStorage : Type := {
  base : BaseOramServerStorage;
  main_memory_ : list (list byte);
  dummy_ : list (list byte);
  shelter_ : list (list byte);
  squared_m_ : N
}.

Definition new_SqrtOramServerStorage (id capacity block_size squared_m : N)
    (instance_hash : string) : SqrtOramServerStorage :=
  {| base := {| id_ := to_uint32 id; capacity_ := capacity;
                block_size_ := block_size; instance_hash_ := instance_hash;
                storage_type_ := kFlatStorage |};
     main_memory_ := []; dummy_ := []; shelter_ := [];
     squared_m_ := squared_m |}.

(** [pos] is a [uint32_t]: the argument of a call is converted to 32
    bits; it is then compared with the [size_t] member after the usual
    conversion, which keeps its value. *)
Definition InRange (self : SqrtOramServerStorage) (pos : N) : bool :=
  to_uint32 pos <? block_size_ (base self).

End oram_impl.

(** ** Small providers to run the definitions on *)

(** The sources are run with the payload size 4 and the enumerators
    [kDummy = 0], [kNormal = 1]. *)
Definition small_defs : oram_defs :=
  {| DEFAULT_ORAM_DATA_SIZE := 4; kNormal := Byte.x01; kDummy := Byte.x00 |}.

(** A provider whose random source only ever emits the byte [c], whose
    shuffle reverses the bucket, and whose cipher reverses the payload and
    appends the iv, padded to 16 bytes, as the tag, which [Decrypt]
    checks. *)
Definition const_tag (c : byte) (iv : list byte) : list byte :=
  take 16 (iv ++ replicate 16 c).

Definition const_cryptor (c : byte) : Cryptor unit :=
  {| RandomBytes := fun n r => ((kOK, replicate n c), r);
     RandomShuffle := fun l r => ((kOK, reverse l), r);
     Encrypt := fun m len iv =>
       (kOK, reverse (take len m) ++ const_tag c iv);
     Decrypt := fun e len iv =>
       if bool_decide (drop (len - 16) (take len e) = const_tag c iv)
       then (kOK, reverse (take (len - 16) e))
       else (kFailure 1, []) |}.

(** A codec that meets [LZ4_contract], to run the adapter on: a run of
    zero bytes is stored as the marker 0 and its length, any other input
    as the marker 1 and the input itself. *)
Definition run_encode (src : list byte) : list byte :=
  if bool_decide (src = replicate (length src) Byte.x00)
  then Byte.x00 :: uint_to_bytes 4 (N.of_nat (length src))
  else Byte.x01 :: src.

Definition run_decode (z : list byte) : option (list byte) :=
  match z with
  | [] => None
  | m :: rest =>
      if bool_decide (m = Byte.x00)
      then Some (replicate (N.to_nat (uint_of_bytes rest)) Byte.x00)
      else if bool_decide (m = Byte.x01) then Some rest else None
  end.

Definition run_codec : LZ4 :=
  {| LZ4_compress_default := fun src srcSize cap =>
       let z := run_encode (take (Z.to_nat srcSize) src) in
       if (Z.of_nat (length z) <=? cap)%Z then (Z.of_nat (length z), z)
       else (0%Z, []);
     LZ4_decompress_safe := fun z csize cap =>
       match run_decode (take (Z.to_nat csize) z) with
       | Some out =>
           if (Z.of_nat (length out) <=? cap)%Z
           then (Z.of_nat (length out), out)
           else ((-1)%Z, [])
       | None => ((-1)%Z, [])
       end |}.

(** A provider whose cipher gives [n] zero bytes whatever it is given. *)
Definition fixed_length_cryptor (n : nat) : Cryptor unit :=
  {| RandomBytes := fun k r => ((kOK, replicate k Byte.x00), r);
     RandomShuffle := fun l r => ((kOK, l), r);
     Encrypt := fun m len iv => (kOK, replicate n Byte.x00);
     Decrypt := fun e len iv => (kOK, replicate n Byte.x00) |}.

(** A provider whose random source reports a failure at every call. *)
Definition failing_cryptor : Cryptor unit :=
  {| RandomBytes := fun n r => ((kFailure 1, []), r);
     RandomShuffle := fun l r => ((kFailure 1, l), r);
     Encrypt := fun m len iv => (kFailure 1, []);
     Decrypt := fun e len iv => (kFailure 1, []) |}.

Definition zero_block (defs : oram_defs) : oram_block_t :=
  {| header := {| block_id := 0; type := Byte.x00;
                  iv := replicate 12 Byte.x00;
                  mac_tag := replicate 16 Byte.x00 |};
     data := replicate (DEFAULT_ORAM_DATA_SIZE defs) Byte.x00 |}.

Definition sample_block : oram_block_t :=
  {| header := {| block_id := 258; type := Byte.x01;
                  iv := replicate 12 Byte.x07;
                  mac_tag := replicate 16 Byte.x09 |};
     data := [Byte.x0a; Byte.x0b; Byte.x0c; Byte.x0d] |}.

(** The contract under which the round trip of the codec is stated: on a
    payload of the fixed size, whatever [Encrypt] gives with status [kOK]
    is the payload's ciphertext followed by the 16-byte tag, and
    [Decrypt] recovers the payload from it under the same iv. *)
Definition Decrypt_inverts_Encrypt {R : Type} (defs : oram_defs)
    (cryptor : Cryptor R) : Prop :=
  forall m iv enc : list byte,
    length m = DEFAULT_ORAM_DATA_SIZE defs ->
    Encrypt cryptor m (DEFAULT_ORAM_DATA_SIZE defs) iv = (kOK, enc) ->
    length enc = (DEFAULT_ORAM_DATA_SIZE defs + 16)%nat
    /\ Decrypt cryptor enc (DEFAULT_ORAM_DATA_SIZE defs + 16) iv = (kOK, m).

(** The two calls that [EncryptBlock] makes on the block [b] from the
    state [r] of the random source both report [kOK]. *)
Definition EncryptBlock_calls_succeed {R : Type} (defs : oram_defs)
    (cryptor : Cryptor R) (b : oram_block_t) (r : R) : Prop :=
  let '(status, bytes) := fst (RandomBytes cryptor 12 r) in
  status = kOK
  /\ fst (Encrypt cryptor (data b) (DEFAULT_ORAM_DATA_SIZE defs)
            (memcpy (iv (header b)) bytes 12)) = kOK.

(** ** Contracts of the random source *)

(** [RandomBytes(buffer, length)] with status [kOK] wrote [length] bytes. *)
Definition RandomBytes_fills {R : Type} (cryptor : Cryptor R) : Prop :=
  forall n r st bs r1,
    RandomBytes cryptor n r = ((st, bs), r1) -> st = kOK -> length bs = n.

(** [RandomShuffle] with status [kOK] left a permutation of the bucket. *)
Definition RandomShuffle_permutes {R : Type} (cryptor : Cryptor R) : Prop :=
  forall l r st l' r1,
    RandomShuffle cryptor l r = ((st, l'), r1) -> st = kOK -> l' ≡ₚ l.

(** The random source never reports a failure. *)
Definition random_source_reliable {R : Type} (cryptor : Cryptor R) : Prop :=
  (forall n r, fst (fst (RandomBytes cryptor n r)) = kOK)
  /\ (forall l r, fst (fst (RandomShuffle cryptor l r)) = kOK).

(** The [n] bytes [bs] are what one successful call of [RandomBytes]
    wrote. *)
Definition drawn_from_random_source {R : Type} (cryptor : Cryptor R)
    (n : nat) (bs : list byte) : Prop :=
  exists r0 r1, RandomBytes cryptor n r0 = ((kOK, bs), r1).

(** The block that round [i] of the loop of [SampleRandomBucket] appends
    ([size] already halved). *)
Definition sampled {R : Type} (defs : oram_defs) (cryptor : Cryptor R)
    (uninit : oram_block_t) (size initial_offset : N)
    (i : nat) (b : oram_block_t) : Prop :=
  block_id (header b) = to_uint32 (to_size_t (N.of_nat i + initial_offset))
  /\ type (header b) = (if N.of_nat i <? size then kNormal defs else kDummy defs)
  /\ exists bytes,
       drawn_from_random_source cryptor (DEFAULT_ORAM_DATA_SIZE defs - 1) bytes
       /\ data b =
            memcpy_at
              (<[0%nat := byte_of_N (to_size_t (N.of_nat i + initial_offset))]>
                 (data uninit))
              1 bytes (DEFAULT_ORAM_DATA_SIZE defs - 1).

(** The block that a round of the loop of [PadStash] appends. *)
Definition padded {R : Type} (defs : oram_defs) (cryptor : Cryptor R)
    (uninit : oram_block_t) (b : oram_block_t) : Prop :=
  exists bytes,
    drawn_from_random_source cryptor (ORAM_BLOCK_SIZE defs) bytes
    /\ b = block_of_bytes defs
             (memcpy (block_bytes uninit) bytes (ORAM_BLOCK_SIZE defs)).

(** ** Reading files *)

(** The file system as [std::ifstream] sees it: the bytes of the file at
    a path, or nothing when the stream is not [good()] after opening.  A
    function that logs through [logger->error] and goes on gives the
    messages it logged beside its value. *)
Definition file_system : Type := string -> option (list byte).

Definition ReadKeyCrtFile (fs : file_system) (path : string)
    : list byte * list string :=
  match fs path with
  | Some content => (content, [])
  | None => ([], ["Failed to read key file: " +:+ path])
  end.

(** [std::getline(file, line)] on the bytes that are left of the stream:
    the bytes up to the first newline, which is extracted and dropped, or
    up to the end; it fails when nothing is left to extract. *)
Fixpoint getline_split (file : list byte) : list byte * list byte :=
  match file with
  | [] => ([], [])
  | c :: rest =>
      if bool_decide (c = Byte.x0a) then ([], rest)
      else let '(line, rest') := getline_split rest in (c :: line, rest')
  end.

Definition getline (file : list byte) : option (list byte * list byte) :=
  match file with
  | [] => None
  | _ :: _ => Some (getline_split file)
  end.

(** The loop [while (std::getline(file, line)) data.emplace_back(line)];
    [fuel] bounds the number of rounds. *)
Fixpoint ReadDataFromFile_loop (fuel : nat) (file : list byte)
    (data : list (list byte)) : list (list byte) :=
  match fuel with
  | O => data
  | S fuel' =>
      match getline file with
      | Some (line, rest) => ReadDataFromFile_loop fuel' rest (data ++ [line])
      | None => data
      end
  end.

(** Every round extracts a byte at least, so the length of the file is
    fuel enough (lemma [ReadDataFromFile_loop_fuel]). *)
Definition ReadDataFromFile (fs : file_system) (path : string)
    : list (list byte) * list string :=
  match fs path with
  | Some content =>
      (ReadDataFromFile_loop (length content) content [], [])
  | None => ([], ["Failed to read data file: " +:+ path])
  end.

(** A text with its last line closed by a newline, if it has one. *)
Definition newline_terminated (content : list byte) : list byte :=
  if bool_decide (content = [] \/ last content = Some Byte.x0a)
  then content
  else content ++ [Byte.x0a].

(** ** Releasing memory *)

(** The heap as [free] sees it: the addresses of the live allocations.
    [free] of an address that is not a live allocation (a double free, a
    wild pointer) is undefined. *)
Definition nullptr : N := 0.

Definition free (ptr : N) (heap : gset N) : outcome (gset N) :=
  if bool_decide (ptr ∈ heap) then Ret (heap ∖ {[ptr]}) else Undefined.

(** The state is the heap and the messages logged so far. *)
Definition SafeFree (ptr : N) (st : gset N * list string)
    : outcome (gset N * list string) :=
  if negb (ptr =? nullptr)
  then obind (free ptr (fst st)) (fun heap => Ret (heap, snd st))
  else Ret (fst st, snd st ++ ["Failed to free nullptr"]).

(** The loop of [SafeFreeAll] over its variable arguments [args]; reading
    an argument that was not passed is undefined. *)
Fixpoint SafeFreeAll_loop (n : nat) (i : nat) (args : list N)
    (st : gset N * list string) : outcome (gset N * list string) :=
  match n with
  | O => Ret st
  | S n' =>
      match args !! i with
      | Some ptr => obind (SafeFree ptr st) (SafeFreeAll_loop n' (S i) args)
      | None => Undefined
      end
  end.

Definition SafeFreeAll (ptr_num : nat) (args : list N)
    (st : gset N * list string) : outcome (gset N * list string) :=
  SafeFreeAll_loop ptr_num 0 args st.

(** * Properties *)

(** ** Bytes and unsigned integers *)

Lemma to_N_byte_of_N (n : N) : Byte.to_N (byte_of_N n) = n mod 256.
Proof.
  unfold byte_of_N.
  destruct (Byte.of_N (n mod 256)) as [b|] eqn:E.
  - by apply Byte.to_of_N.
  - apply Byte.of_N_None_iff in E.
    pose proof (N.mod_upper_bound n 256). lia.
Qed.

Lemma byte_of_N_to_N (b : byte) : byte_of_N (Byte.to_N b) = b.
Proof.
  unfold byte_of_N.
  pose proof (Byte.to_N_bounded b).
  rewrite N.mod_small by lia.
  by rewrite Byte.of_to_N.
Qed.

Lemma length_uint_to_bytes (k : nat) (n : N) : length (uint_to_bytes k n) = k.
Proof. revert n. induction k as [|k IH]; intros n; simpl; [done|]. by rewrite IH. Qed.

Lemma uint_of_to_bytes (k : nat) (n : N) :
  uint_of_bytes (uint_to_bytes k n) = n mod 256 ^ N.of_nat k.
Proof.
  revert n. induction k as [|k IH]; intros n.
  - simpl. by rewrite N.mod_1_r.
  - cbn [uint_to_bytes uint_of_bytes].
    rewrite to_N_byte_of_N, IH.
    replace (N.of_nat (S k)) with (N.succ (N.of_nat k)) by lia.
    rewrite N.pow_succ_r by lia.
    rewrite N.Div0.mod_mul_r. lia.
Qed.

Lemma uint32_of_to_bytes (n : N) :
  n < 2 ^ 32 -> uint_of_bytes (uint_to_bytes 4 n) = n.
Proof.
  intros Hn. rewrite uint_of_to_bytes.
  apply N.mod_small. exact Hn.
Qed.

(** ** Raw copies *)

(** Decides a comparison of natural numbers that [lia] can settle. *)
Ltac nat_ltb :=
  match goal with
  | |- context [(?a <? ?b)%nat] =>
      first
        [ replace (a <? b)%nat with true
            by (symmetry; apply Nat.ltb_lt; lia)
        | replace (a <? b)%nat with false
            by (symmetry; apply Nat.ltb_ge; lia) ]
  end.

Lemma memcpy_eq (dst src : list byte) (n : nat) :
  memcpy dst src n = take n src ++ drop n dst.
Proof. reflexivity. Qed.

Lemma memcpy_whole (dst src : list byte) (n : nat) :
  length src = n -> (length dst <= n)%nat -> memcpy dst src n = src.
Proof.
  intros Hs Hd. rewrite memcpy_eq.
  rewrite take_ge by lia. rewrite drop_ge by lia. by rewrite app_nil_r.
Qed.

Lemma memcpy_at_length (dst src : list byte) (off n : nat) :
  (n <= length src)%nat -> (off + n <= length dst)%nat ->
  length (memcpy_at dst off src n) = length dst.
Proof.
  intros Hs Hd. unfold memcpy_at.
  rewrite !length_app, !length_take, length_drop. lia.
Qed.

(** ** Serialization *)

Section Serialization_facts.
Variable defs : oram_defs.

Lemma length_block_bytes (b : oram_block_t) :
  block_wf defs b -> length (block_bytes b) = ORAM_BLOCK_SIZE defs.
Proof.
  intros [_ Hiv Hmac Hdata]. unfold block_bytes, ORAM_BLOCK_SIZE, HEADER_SIZE.
  rewrite !length_app, length_uint_to_bytes, Hiv, Hmac, Hdata. simpl. lia.
Qed.

Lemma block_of_bytes_block_bytes (b : oram_block_t) (rest : list byte) :
  block_wf defs b -> block_of_bytes defs (block_bytes b ++ rest) = b.
Proof.
  intros [Hid Hiv Hmac Hdata].
  destruct b as [[id t i m] d]. simpl in *.
  unfold block_of_bytes, block_bytes. simpl.
  f_equal; [f_equal|].
  - exact (uint32_of_to_bytes id Hid).
  - rewrite drop_0, <- !app_assoc. by rewrite take_app_length'.
  - rewrite <- !app_assoc, drop_app_length' by done.
    by rewrite take_app_length'.
  - rewrite <- !app_assoc.
    replace 28%nat with (length (i ++ m)) by (rewrite length_app; lia).
    rewrite (app_assoc i m), drop_app_length.
    by rewrite take_app_length'.
Qed.

Lemma ConvertToString_eq (b : oram_block_t) (s : list byte) :
  block_wf defs b -> ConvertToString defs b s = block_bytes b.
Proof.
  intros Hwf. unfold ConvertToString.
  apply memcpy_whole.
  - by apply length_block_bytes.
  - by rewrite length_resize.
Qed.

Lemma ConvertToBlock_ok (d : list byte) (uninit : oram_block_t) :
  length d = ORAM_BLOCK_SIZE defs ->
  ConvertToBlock defs d uninit =
    Ret (block_of_bytes defs
           (memcpy (block_bytes uninit) d (ORAM_BLOCK_SIZE defs))).
Proof.
  intros Hd. unfold ConvertToBlock, PANIC_IF.
  by rewrite bool_decide_eq_true_2.
Qed.

Lemma ConvertToBlock_panic (d : list byte) (uninit : oram_block_t) :
  length d <> ORAM_BLOCK_SIZE defs ->
  ConvertToBlock defs d uninit = Abort "Invalid data size".
Proof.
  intros Hd. unfold ConvertToBlock, PANIC_IF.
  by rewrite bool_decide_eq_false_2.
Qed.

Lemma ConvertToBlock_ConvertToString (b uninit : oram_block_t) (s : list byte) :
  block_wf defs b ->
  ConvertToBlock defs (ConvertToString defs b s) uninit = Ret b.
Proof.
  intros Hwf. rewrite ConvertToString_eq by done.
  rewrite ConvertToBlock_ok by (by apply length_block_bytes).
  f_equal. rewrite memcpy_eq.
  rewrite (take_ge (block_bytes b)) by (rewrite length_block_bytes; [lia|done]).
  by apply block_of_bytes_block_bytes.
Qed.

Lemma serialize_loop_eq (bucket : p_oram_bucket_t) (ans : list (list byte)) :
  serialize_loop defs bucket ans =
    ans ++ map (fun b => ConvertToString defs b []) bucket.
Proof.
  revert ans. induction bucket as [|b bucket IH]; intros ans; simpl.
  - by rewrite app_nil_r.
  - rewrite IH. by rewrite <- app_assoc.
Qed.

Lemma deserialize_loop_serialized (uninit : oram_block_t)
    (bucket ans : p_oram_bucket_t) :
  Forall (block_wf defs) bucket ->
  deserialize_loop defs uninit
    (map (fun b => ConvertToString defs b []) bucket) ans
  = Ret (ans ++ bucket).
Proof.
  intros Hwf. revert ans.
  induction Hwf as [|b bucket Hb _ IH]; intros ans; simpl.
  - by rewrite app_nil_r.
  - rewrite ConvertToBlock_ConvertToString by done. simpl.
    rewrite IH. by rewrite <- app_assoc.
Qed.

Lemma deserialize_loop_ret (uninit : oram_block_t) (data : list (list byte))
    (ans : p_oram_bucket_t) :
  Forall (fun s => length s = ORAM_BLOCK_SIZE defs) data ->
  exists bucket,
    deserialize_loop defs uninit data ans = Ret (ans ++ bucket)
    /\ length bucket = length data.
Proof.
  intros Hall. revert ans.
  induction Hall as [|d data Hd _ IH]; intros ans; simpl.
  - exists []. by rewrite app_nil_r.
  - rewrite ConvertToBlock_ok by done. simpl.
    destruct (IH (ans ++ [block_of_bytes defs
               (memcpy (block_bytes uninit) d (ORAM_BLOCK_SIZE defs))]))
      as (bucket & Hb & Hlen).
    eexists (_ :: bucket). split.
    + rewrite Hb. by rewrite <- app_assoc.
    + simpl. by rewrite Hlen.
Qed.

Lemma deserialize_loop_panic (uninit : oram_block_t) (data : list (list byte))
    (ans : p_oram_bucket_t) :
  Exists (fun s => length s <> ORAM_BLOCK_SIZE defs) data ->
  deserialize_loop defs uninit data ans = Abort "Invalid data size".
Proof.
  intros Hex. revert ans.
  induction data as [|d data IH]; intros ans.
  - by apply Exists_nil in Hex.
  - simpl. destruct (decide (length d = ORAM_BLOCK_SIZE defs)) as [Hd|Hd].
    + rewrite ConvertToBlock_ok by done. simpl.
      apply IH. apply Exists_cons in Hex as [Hex|Hex]; [done|exact Hex].
    + by rewrite ConvertToBlock_panic.
Qed.

(** C8. Fixed-size invariant: the string that [ConvertToString] produces
    for a block has [ORAM_BLOCK_SIZE] bytes whatever the type of the block
    (and whatever the string held before), and so has every string of
    the output of [SerializeToStringVector]. *)
Theorem ConvertToString_fixed_size (b : oram_block_t) (s : list byte) :
  block_wf defs b ->
  length (ConvertToString defs b s) = ORAM_BLOCK_SIZE defs
  /\ (forall bucket, Forall (block_wf defs) bucket ->
        Forall (fun str => length str = ORAM_BLOCK_SIZE defs)
               (SerializeToStringVector defs bucket)).
Proof.
  intros Hwf. split.
  - rewrite ConvertToString_eq by done. by apply length_block_bytes.
  - intros bucket Hall. unfold SerializeToStringVector.
    rewrite serialize_loop_eq. simpl.
    apply Forall_fmap. eapply Forall_impl; [exact Hall|].
    intros b' Hb'. unfold compose.
    rewrite ConvertToString_eq by done. by apply length_block_bytes.
Qed.

(** C4. Round trip of the serialization: deserializing the strings that
    [SerializeToStringVector] gives for a bucket returns the bucket, block
    for block and in the same order. *)
Theorem Deserialize_Serialize_roundtrip (uninit : oram_block_t)
    (bucket : p_oram_bucket_t) :
  Forall (block_wf defs) bucket ->
  DeserializeFromStringVector defs uninit
    (SerializeToStringVector defs bucket) = Ret bucket.
Proof.
  intros Hwf. unfold DeserializeFromStringVector, SerializeToStringVector.
  rewrite serialize_loop_eq. simpl.
  by rewrite deserialize_loop_serialized.
Qed.

(** C7. [DeserializeFromStringVector] ends in the fatal abort of the
    precondition check exactly when some input string has a length other
    than [ORAM_BLOCK_SIZE]; it returns a bucket (one block for each
    string) exactly when every string has [ORAM_BLOCK_SIZE] bytes; no
    other outcome exists. *)
Theorem Deserialize_fatal_iff_bad_length (uninit : oram_block_t)
    (data : list (list byte)) :
  (DeserializeFromStringVector defs uninit data = Abort "Invalid data size"
   <-> Exists (fun s => length s <> ORAM_BLOCK_SIZE defs) data)
  /\ ((exists bucket,
         DeserializeFromStringVector defs uninit data = Ret bucket
         /\ length bucket = length data)
      <-> Forall (fun s => length s = ORAM_BLOCK_SIZE defs) data)
  /\ DeserializeFromStringVector defs uninit data <> Undefined.
Proof.
  unfold DeserializeFromStringVector.
  destruct (decide (Forall (fun s => length s = ORAM_BLOCK_SIZE defs) data))
    as [Hall|Hnot].
  - destruct (deserialize_loop_ret uninit data [] Hall) as (bucket & Hb & Hlen).
    simpl in Hb. rewrite Hb. repeat split; try done.
    + intros Hex. apply Exists_exists in Hex as (s & Hin & Hs).
      rewrite Forall_forall in Hall. by specialize (Hall s Hin).
    + intros _. by exists bucket.
  - assert (Hex : Exists (fun s => length s <> ORAM_BLOCK_SIZE defs) data).
    { apply not_Forall_Exists in Hnot; [exact Hnot|]. intros s. apply _. }
    rewrite (deserialize_loop_panic uninit data [] Hex).
    repeat split; try done.
    intros (bucket & Hb & _). discriminate Hb.
Qed.

End Serialization_facts.

(** ** The block codec *)

Lemma const_cryptor_inverts (defs : oram_defs) (c : byte) :
  Decrypt_inverts_Encrypt defs (const_cryptor c).
Proof.
  intros m iv enc Hm Henc. simpl in *.
  injection Henc as <-.
  assert (Htag : length (const_tag c iv) = 16%nat).
  { unfold const_tag. rewrite length_take, length_app, length_replicate. lia. }
  rewrite take_ge by lia.
  split.
  - rewrite length_app, length_reverse, Htag. lia.
  - rewrite (take_ge (reverse m ++ const_tag c iv))
      by (rewrite length_app, length_reverse, Htag; lia).
    replace (DEFAULT_ORAM_DATA_SIZE defs + 16 - 16)%nat
      with (length (reverse m)) by (rewrite length_reverse; lia).
    rewrite drop_app_length, take_app_length.
    rewrite bool_decide_eq_true_2 by done.
    by rewrite reverse_involutive.
Qed.

Section Codec_facts.
Context {R : Type}.
Variable defs : oram_defs.
Variable cryptor : Cryptor R.

Lemma EncryptBlock_not_normal (b : oram_block_t) (r : R) :
  type (header b) <> kNormal defs ->
  EncryptBlock defs cryptor b r = Ret (b, r).
Proof.
  intros Ht. unfold EncryptBlock.
  by rewrite bool_decide_eq_false_2.
Qed.

Lemma DecryptBlock_not_normal (b : oram_block_t) :
  type (header b) <> kNormal defs ->
  DecryptBlock defs cryptor b = Ret b.
Proof.
  intros Ht. unfold DecryptBlock.
  by rewrite bool_decide_eq_false_2.
Qed.

(** The header fields that [EncryptBlock] does not write. *)
Lemma EncryptBlock_frame (b b' : oram_block_t) (r r' : R) :
  EncryptBlock defs cryptor b r = Ret (b', r') ->
  block_id (header b') = block_id (header b)
  /\ type (header b') = type (header b).
Proof.
  unfold EncryptBlock, bind, call, lift, ret, undefined, CheckStatus.
  destruct (bool_decide (type (header b) = kNormal defs)); simpl.
  2: { intros [= <- <-]. done. }
  destruct (RandomBytes cryptor 12 r) as [[st bytes] r1]; simpl.
  destruct (bool_decide (st = kOK)); simpl; [|done].
  destruct (Encrypt cryptor _ _ _) as [st2 enc]; simpl.
  destruct (bool_decide (st2 = kOK)); simpl; [|done].
  destruct (length enc <? 16)%nat; [done|].
  destruct (DEFAULT_ORAM_DATA_SIZE defs <? length enc - 16)%nat; [done|].
  intros [= <- <-]. done.
Qed.

(** [DecryptBlock] writes the payload only. *)
Lemma DecryptBlock_frame (b b' : oram_block_t) :
  DecryptBlock defs cryptor b = Ret b' -> header b' = header b.
Proof.
  unfold DecryptBlock, CheckStatus.
  destruct (bool_decide (type (header b) = kNormal defs)); simpl.
  2: { intros [= <-]. done. }
  destruct (Decrypt cryptor _ _ _) as [st dec]; simpl.
  destruct (bool_decide (st = kOK)); simpl; [|done].
  destruct (DEFAULT_ORAM_DATA_SIZE defs <? length dec)%nat; [done|].
  intros [= <-]. done.
Qed.

(** [EncryptBlock] on a [Normal] block, given what its two calls give. *)
Lemma EncryptBlock_normal_ok (b : oram_block_t) (r r1 : R)
    (bytes enc : list byte) :
  block_wf defs b ->
  type (header b) = kNormal defs ->
  RandomBytes cryptor 12 r = ((kOK, bytes), r1) ->
  Encrypt cryptor (data b) (DEFAULT_ORAM_DATA_SIZE defs)
    (memcpy (iv (header b)) bytes 12) = (kOK, enc) ->
  length enc = (DEFAULT_ORAM_DATA_SIZE defs + 16)%nat ->
  EncryptBlock defs cryptor b r =
    Ret ({| header := {| block_id := block_id (header b);
                         type := type (header b);
                         iv := memcpy (iv (header b)) bytes 12;
                         mac_tag := drop (DEFAULT_ORAM_DATA_SIZE defs) enc |};
            data := take (DEFAULT_ORAM_DATA_SIZE defs) enc |}, r1).
Proof.
  intros [_ Hiv Hmac Hdata] Ht Hrand Henc Hlen.
  unfold EncryptBlock, bind, call, lift, ret, undefined, CheckStatus.
  rewrite bool_decide_eq_true_2 by done. simpl.
  rewrite Hrand. simpl. rewrite Henc. simpl.
  do 2 nat_ltb.
  unfold set_data, set_mac_tag, set_iv. simpl.
  replace (length enc - 16)%nat with (DEFAULT_ORAM_DATA_SIZE defs) by lia.
  do 3 f_equal.
  - f_equal. rewrite memcpy_eq.
    rewrite take_ge by (rewrite length_drop; lia).
    rewrite (drop_ge (mac_tag (header b))) by lia. by rewrite app_nil_r.
  - rewrite memcpy_eq.
    rewrite (drop_ge (data b)) by lia. by rewrite app_nil_r.
Qed.

(** [DecryptBlock] on the block that [EncryptBlock] leaves. *)
Lemma DecryptBlock_encrypted (h : oram_block_header_t) (m enc : list byte) :
  type h = kNormal defs ->
  length enc = (DEFAULT_ORAM_DATA_SIZE defs + 16)%nat ->
  length m = DEFAULT_ORAM_DATA_SIZE defs ->
  Decrypt cryptor enc (DEFAULT_ORAM_DATA_SIZE defs + 16) (iv h) = (kOK, m) ->
  mac_tag h = drop (DEFAULT_ORAM_DATA_SIZE defs) enc ->
  DecryptBlock defs cryptor
    {| header := h; data := take (DEFAULT_ORAM_DATA_SIZE defs) enc |}
  = Ret {| header := h; data := m |}.
Proof.
  intros Ht Hlen Hm Hdec Hmac.
  unfold DecryptBlock, CheckStatus. simpl.
  rewrite bool_decide_eq_true_2 by done. simpl.
  assert (Hbuf :
    memcpy_at
      (memcpy (replicate (DEFAULT_ORAM_DATA_SIZE defs + 16) Byte.x00)
         (take (DEFAULT_ORAM_DATA_SIZE defs) enc)
         (DEFAULT_ORAM_DATA_SIZE defs))
      (DEFAULT_ORAM_DATA_SIZE defs) (mac_tag h) 16 = enc).
  { rewrite memcpy_eq. unfold memcpy_at.
    rewrite take_take, Nat.min_id.
    rewrite take_app_length' by (rewrite length_take; lia).
    rewrite (drop_ge _ (DEFAULT_ORAM_DATA_SIZE defs + 16))
      by (rewrite length_app, length_take, length_drop, length_replicate; lia).
    rewrite app_nil_r, Hmac.
    rewrite (take_ge (drop _ enc)) by (rewrite length_drop; lia).
    apply take_drop. }
  rewrite Hbuf, Hdec. simpl.
  nat_ltb.
  unfold set_data. simpl. do 2 f_equal.
  rewrite memcpy_eq.
  rewrite take_ge by lia.
  rewrite drop_ge by (rewrite length_take; lia). by rewrite app_nil_r.
Qed.

Lemma EncryptBlock_normal_abort (b : oram_block_t) (r : R) :
  type (header b) = kNormal defs ->
  ~ EncryptBlock_calls_succeed defs cryptor b r ->
  exists msg, EncryptBlock defs cryptor b r = Abort msg.
Proof.
  intros Ht Hfail.
  unfold EncryptBlock_calls_succeed in Hfail.
  unfold EncryptBlock, bind, call, lift, ret, undefined, CheckStatus.
  rewrite bool_decide_eq_true_2 by done. simpl.
  destruct (RandomBytes cryptor 12 r) as [[st bytes] r1]. simpl in *.
  destruct (decide (st = kOK)) as [->|Hst].
  - simpl.
    destruct (Encrypt cryptor _ _ _) as [st2 enc] eqn:Henc. simpl in *.
    destruct (decide (st2 = kOK)) as [->|Hst2].
    + exfalso. apply Hfail. done.
    + rewrite bool_decide_eq_false_2 by done. simpl. eauto.
  - rewrite bool_decide_eq_false_2 by done. simpl. eauto.
Qed.

(** C1. Round trip of the codec.  On a [Normal] block, when the two calls
    of [EncryptBlock] to the provider succeed, [EncryptBlock] returns and
    [DecryptBlock] of its result returns a block with the payload of the
    original block (and the same [block_id] and [type]; [iv] and [mac_tag]
    are those that [EncryptBlock] wrote); when one of the calls fails
    [EncryptBlock] aborts.  On a block of any other type both functions
    return the block as it is. *)
Theorem EncryptBlock_DecryptBlock_roundtrip (b : oram_block_t) (r : R) :
  Decrypt_inverts_Encrypt defs cryptor ->
  block_wf defs b ->
  (type (header b) = kNormal defs ->
     (EncryptBlock_calls_succeed defs cryptor b r ->
        exists b' r' b'',
          EncryptBlock defs cryptor b r = Ret (b', r')
          /\ DecryptBlock defs cryptor b' = Ret b''
          /\ data b'' = data b
          /\ block_id (header b'') = block_id (header b)
          /\ type (header b'') = type (header b)
          /\ header b'' = header b')
     /\ (~ EncryptBlock_calls_succeed defs cryptor b r ->
          exists msg, EncryptBlock defs cryptor b r = Abort msg))
  /\ (type (header b) <> kNormal defs ->
        EncryptBlock defs cryptor b r = Ret (b, r)
        /\ DecryptBlock defs cryptor b = Ret b).
Proof.
  intros Hinv Hwf. split.
  - intros Ht. split; [|by apply EncryptBlock_normal_abort].
    unfold EncryptBlock_calls_succeed.
    destruct (RandomBytes cryptor 12 r) as [[st bytes] r1] eqn:Hrand.
    simpl.
    destruct (Encrypt cryptor (data b) (DEFAULT_ORAM_DATA_SIZE defs)
                (memcpy (iv (header b)) bytes 12)) as [st2 enc] eqn:Henc.
    simpl. intros [-> ->].
    destruct (Hinv _ _ _ (wf_data _ _ Hwf) Henc) as [Hlen Hdec].
    eexists _, r1, _. split; [|split].
    + by apply EncryptBlock_normal_ok.
    + apply (DecryptBlock_encrypted _ (data b) enc); try done.
      by apply wf_data.
    + done.
  - intros Ht. split.
    + by apply EncryptBlock_not_normal.
    + by apply DecryptBlock_not_normal.
Qed.

(** C10. Frame of the codec on a [Normal] block: [EncryptBlock] leaves
    [header.block_id] and [header.type] as they are (it writes [iv],
    [mac_tag] and [data] only), and [DecryptBlock] leaves [block_id],
    [type], [iv] and [mac_tag] as they are (it writes [data] only). *)
Theorem codec_frame (b b' : oram_block_t) (r r' : R) :
  type (header b) = kNormal defs ->
  (EncryptBlock defs cryptor b r = Ret (b', r') ->
     block_id (header b') = block_id (header b)
     /\ type (header b') = type (header b))
  /\ (DecryptBlock defs cryptor b = Ret b' ->
       block_id (header b') = block_id (header b)
       /\ type (header b') = type (header b)
       /\ iv (header b') = iv (header b)
       /\ mac_tag (header b') = mac_tag (header b)).
Proof.
  intros _. split.
  - apply EncryptBlock_frame.
  - intros Hdec. apply DecryptBlock_frame in Hdec. by rewrite Hdec.
Qed.

End Codec_facts.

(** ** Loops *)

Lemma for_loop_inv {R S : Type} (P : nat -> S -> Prop)
    (body : nat -> S -> M R S) (n i : nat) (s s' : S) (r r' : R) :
  (forall j t t' q q', P j t -> body j t q = Ret (t', q') -> P (Datatypes.S j) t') ->
  P i s ->
  for_loop n i body s r = Ret (s', r') ->
  P (n + i)%nat s'.
Proof.
  intros Hstep. revert i s r.
  induction n as [|n IH]; intros i s r Hi; simpl.
  - unfold ret. by intros [= <- <-].
  - unfold bind at 1. destruct (body i s r) as [[t q]| |] eqn:Hb; simpl; try done.
    intros Hloop. apply IH in Hloop; [|by eapply Hstep].
    by replace (Datatypes.S (n + i)) with (n + Datatypes.S i)%nat by lia.
Qed.

Lemma for_loop_total {R S : Type} (body : nat -> S -> M R S) :
  (forall j t q, exists t' q', body j t q = Ret (t', q')) ->
  forall n i s r, exists s' r', for_loop n i body s r = Ret (s', r').
Proof.
  intros Hbody n. induction n as [|n IH]; intros i s r; simpl.
  - by exists s, r.
  - unfold bind at 1. destruct (Hbody i s r) as (t & q & ->). simpl. apply IH.
Qed.

(** ** Stash padding and bucket sampling *)

Section Utilities_facts.
Context {R : Type}.
Variable defs : oram_defs.
Variable cryptor : Cryptor R.

Lemma PadStash_body_ret (uninit : oram_block_t) (i : nat)
    (stash stash' : p_oram_stash_t) (r r' : R) :
  PadStash_body defs cryptor uninit i stash r = Ret (stash', r') ->
  exists b, padded defs cryptor uninit b /\ stash' = stash ++ [b].
Proof.
  unfold PadStash_body, bind, call, abort, ret.
  destruct (RandomBytes cryptor (ORAM_BLOCK_SIZE defs) r)
    as [[st bytes] r1] eqn:Hrand. simpl.
  destruct (decide (st = kOK)) as [->|Hst].
  - simpl. intros [= <- <-]. eexists. split; [|done].
    exists bytes. split; [by exists r, r1|done].
  - by rewrite bool_decide_eq_false_2.
Qed.

Lemma PadStash_unchanged (uninit : oram_block_t) (stash : p_oram_stash_t)
    (bucket_size : nat) (r : R) :
  (bucket_size <= length stash)%nat ->
  PadStash defs cryptor uninit stash bucket_size r = Ret (stash, r).
Proof.
  intros Hle. unfold PadStash.
  by nat_ltb.
Qed.

Lemma PadStash_pads (uninit : oram_block_t) (stash stash' : p_oram_stash_t)
    (bucket_size : nat) (r r' : R) :
  (length stash < bucket_size)%nat ->
  PadStash defs cryptor uninit stash bucket_size r = Ret (stash', r') ->
  length stash' = bucket_size
  /\ exists appended,
       stash' = stash ++ appended
       /\ Forall (padded defs cryptor uninit) appended.
Proof.
  intros Hlt. unfold PadStash.
  nat_ltb.
  intros Hloop.
  apply (for_loop_inv
           (fun j st => length st = j /\ exists appended,
              st = stash ++ appended
              /\ Forall (padded defs cryptor uninit) appended)) in Hloop.
  - destruct Hloop as [Hlen Happ]. split; [lia|done].
  - intros j t t' q q' [Hlen (app & -> & Hall)] Hbody.
    apply PadStash_body_ret in Hbody as (b & Hb & ->).
    split.
    + rewrite length_app. simpl. lia.
    + exists (app ++ [b]). split; [by rewrite app_assoc|].
      apply Forall_app. split; [done|]. by apply Forall_singleton.
  - split; [done|]. exists []. by rewrite app_nil_r.
Qed.

Lemma PadStash_returns (uninit : oram_block_t) (stash : p_oram_stash_t)
    (bucket_size : nat) (r : R) :
  random_source_reliable cryptor ->
  exists stash' r',
    PadStash defs cryptor uninit stash bucket_size r = Ret (stash', r').
Proof.
  intros [Hrel _]. unfold PadStash.
  destruct (length stash <? bucket_size)%nat; [|by eexists _, _].
  apply for_loop_total. intros j t q.
  unfold PadStash_body, bind, call, abort, ret.
  specialize (Hrel (ORAM_BLOCK_SIZE defs) q).
  destruct (RandomBytes cryptor (ORAM_BLOCK_SIZE defs) q) as [[st bytes] q1].
  simpl in *. subst st. simpl. by eexists _, _.
Qed.

(** The type of a padding block is the fifth of its random bytes: no
    statement of the loop sets it. *)
Lemma padded_type (uninit b : oram_block_t) :
  RandomBytes_fills cryptor ->
  padded defs cryptor uninit b ->
  exists bytes,
    drawn_from_random_source cryptor (ORAM_BLOCK_SIZE defs) bytes
    /\ type (header b) = nth 4 bytes Byte.x00.
Proof.
  intros Hfill (bytes & Hdrawn & ->). exists bytes. split; [done|].
  destruct Hdrawn as (r0 & r1 & Hrand).
  pose proof (Hfill _ _ _ _ _ Hrand eq_refl) as Hlen.
  simpl. rewrite memcpy_eq.
  rewrite take_ge by lia.
  rewrite app_nth1; [done|].
  rewrite Hlen. unfold ORAM_BLOCK_SIZE, HEADER_SIZE. lia.
Qed.

Lemma byte_of_N_to_uint32 (n : N) : byte_of_N (to_uint32 n) = byte_of_N n.
Proof.
  unfold byte_of_N, to_uint32.
  replace ((n mod 2 ^ 32) mod 256) with (n mod 256); [done|].
  change (2 ^ 32) with (256 * 2 ^ 24).
  rewrite N.Div0.mod_mul_r.
  rewrite (N.mul_comm 256), N.Div0.mod_add.
  by rewrite N.Div0.mod_mod.
Qed.

Lemma SampleRandomBucket_body_ret (uninit : oram_block_t)
    (size initial_offset : N) (i : nat) (bucket bucket' : p_oram_bucket_t)
    (r r' : R) :
  SampleRandomBucket_body defs cryptor uninit size initial_offset i bucket r
    = Ret (bucket', r') ->
  exists b,
    sampled defs cryptor uninit size initial_offset i b
    /\ bucket' = bucket ++ [b].
Proof.
  unfold SampleRandomBucket_body, bind, call, abort, ret.
  destruct (RandomBytes cryptor (DEFAULT_ORAM_DATA_SIZE defs - 1) r)
    as [[st bytes] r1] eqn:Hrand. simpl.
  destruct (decide (st = kOK)) as [->|Hst].
  - simpl. intros [= <- <-]. eexists. split; [|done].
    repeat split. exists bytes. split; [by exists r, r1|done].
  - by rewrite bool_decide_eq_false_2.
Qed.

Lemma SampleRandomBucket_loop_spec (uninit : oram_block_t)
    (size initial_offset : N) (n : nat) (bucket : p_oram_bucket_t)
    (r r' : R) :
  for_loop n 0 (SampleRandomBucket_body defs cryptor uninit size initial_offset)
    [] r = Ret (bucket, r') ->
  Forall2 (sampled defs cryptor uninit size initial_offset) (seq 0 n) bucket.
Proof.
  intros Hloop.
  apply (for_loop_inv
           (fun j bk => Forall2 (sampled defs cryptor uninit size initial_offset)
                          (seq 0 j) bk)) in Hloop.
  - by rewrite Nat.add_0_r in Hloop.
  - intros j t t' q q' Hall Hbody.
    apply SampleRandomBucket_body_ret in Hbody as (b & Hb & ->).
    rewrite seq_S. simpl. apply Forall2_app; [done|].
    by apply Forall2_cons.
  - constructor.
Qed.

Lemma SampleRandomBucket_ret (uninit : oram_block_t)
    (size tree_size initial_offset : N) (bucket' : p_oram_bucket_t)
    (r r' : R) :
  SampleRandomBucket defs cryptor uninit size tree_size initial_offset r
    = Ret (bucket', r') ->
  exists bucket r1,
    Forall2 (sampled defs cryptor uninit (size / 2) initial_offset)
      (seq 0 (N.to_nat tree_size)) bucket
    /\ RandomShuffle cryptor bucket r1 = ((kOK, bucket'), r').
Proof.
  unfold SampleRandomBucket. unfold bind at 1.
  destruct (for_loop _ _ _ _ r) as [[bucket r1]| |] eqn:Hloop; simpl; try done.
  apply SampleRandomBucket_loop_spec in Hloop.
  rewrite N.shiftr_div_pow2 in Hloop. change (2 ^ 1) with 2 in Hloop.
  unfold bind, call, lift, PANIC_IF. simpl.
  destruct (RandomShuffle cryptor bucket r1) as [[st bk] r2] eqn:Hsh. simpl.
  destruct (decide (st = kOK)) as [->|Hst].
  - simpl. intros [= <- <-]. by exists bucket, r1.
  - by rewrite bool_decide_eq_false_2.
Qed.

Lemma SampleRandomBucket_returns (uninit : oram_block_t)
    (size tree_size initial_offset : N) (r : R) :
  random_source_reliable cryptor ->
  exists bucket r',
    SampleRandomBucket defs cryptor uninit size tree_size initial_offset r
      = Ret (bucket, r').
Proof.
  intros [Hbytes Hshuffle]. unfold SampleRandomBucket. unfold bind at 1.
  destruct (for_loop_total
              (SampleRandomBucket_body defs cryptor uninit
                 (N.shiftr size 1) initial_offset)) with
    (n := N.to_nat tree_size) (i := 0%nat) (s := @nil oram_block_t) (r := r)
    as (bucket & r1 & ->).
  { intros j t q. unfold SampleRandomBucket_body, bind, call, abort, ret.
    specialize (Hbytes (DEFAULT_ORAM_DATA_SIZE defs - 1)%nat q).
    destruct (RandomBytes cryptor _ q) as [[st bytes] q1].
    simpl in *. subst st. simpl. by eexists _, _. }
  simpl. unfold bind, call, lift, PANIC_IF. simpl.
  specialize (Hshuffle bucket r1).
  destruct (RandomShuffle cryptor bucket r1) as [[st bk] r2].
  simpl in *. subst st. simpl. by eexists _, _.
Qed.

(** Before the shuffle the [Normal] blocks are the first [size] blocks. *)
Lemma sampled_normals (uninit : oram_block_t) (size initial_offset : N)
    (a n : nat) (bucket : p_oram_bucket_t) :
  kNormal defs <> kDummy defs ->
  Forall2 (sampled defs cryptor uninit size initial_offset) (seq a n) bucket ->
  filter (fun b => type (header b) = kNormal defs) bucket
    = take (N.to_nat size - a) bucket.
Proof.
  intros Hneq. revert a bucket.
  induction n as [|n IH]; intros a bucket Hall; simpl in Hall.
  - apply Forall2_nil_inv_l in Hall as ->. by rewrite take_nil.
  - apply Forall2_cons_inv_l in Hall as (b & rest & Hb & Hall & ->).
    specialize (IH _ _ Hall).
    destruct Hb as (_ & Ht & _).
    destruct (N.ltb_spec (N.of_nat a) size) as [Hlt|Hge].
    + rewrite filter_cons_True by done. rewrite IH.
      replace (N.to_nat size - a)%nat
        with (Datatypes.S (N.to_nat size - Datatypes.S a)) by lia.
      done.
    + rewrite filter_cons_False by (rewrite Ht; congruence).
      rewrite IH.
      replace (N.to_nat size - Datatypes.S a)%nat with 0%nat by lia.
      replace (N.to_nat size - a)%nat with 0%nat by lia.
      done.
Qed.

(** Without wrap-around the identifiers are [initial_offset + i]. *)
Lemma sampled_block_ids (uninit : oram_block_t) (size initial_offset : N)
    (a n : nat) (bucket : p_oram_bucket_t) :
  N.of_nat (a + n) + initial_offset <= 2 ^ 32 ->
  Forall2 (sampled defs cryptor uninit size initial_offset) (seq a n) bucket ->
  (fun b => block_id (header b)) <$> bucket
    = (fun k => N.of_nat k + initial_offset) <$> seq a n.
Proof.
  revert a bucket.
  induction n as [|n IH]; intros a bucket Hle Hall; simpl in Hall.
  - by apply Forall2_nil_inv_l in Hall as ->.
  - apply Forall2_cons_inv_l in Hall as (b & rest & Hb & Hall & ->).
    simpl. f_equal.
    + destruct Hb as (-> & _). unfold to_uint32, to_size_t.
      rewrite (N.mod_small _ (2 ^ 64)) by lia.
      apply N.mod_small. lia.
    + apply IH; [lia|done].
Qed.

(** After the shuffle, the identifiers of the [Normal] blocks are, up to
    their order, [initial_offset], [initial_offset + 1], ... as many as
    the smaller of [size / 2] and [tree_size]. *)
Lemma SampleRandomBucket_normal_ids (uninit : oram_block_t)
    (size tree_size initial_offset : N) (bucket : p_oram_bucket_t)
    (r r' : R) :
  kNormal defs <> kDummy defs ->
  RandomShuffle_permutes cryptor ->
  initial_offset + N.min (size / 2) tree_size <= 2 ^ 32 ->
  SampleRandomBucket defs cryptor uninit size tree_size initial_offset r
    = Ret (bucket, r') ->
  length bucket = N.to_nat tree_size
  /\ (fun b => block_id (header b))
       <$> filter (fun b => type (header b) = kNormal defs) bucket
     ≡ₚ (fun k => N.of_nat k + initial_offset)
          <$> seq 0 (N.to_nat (N.min (size / 2) tree_size)).
Proof.
  intros Hneq Hperm Hwrap Hret.
  apply SampleRandomBucket_ret in Hret as (bucket0 & r1 & Hall & Hsh).
  specialize (Hperm _ _ _ _ _ Hsh eq_refl).
  pose proof (Forall2_length _ _ _ Hall) as Hlen. rewrite length_seq in Hlen.
  split; [by rewrite Hperm|].
  rewrite Hperm.
  rewrite (sampled_normals _ _ _ _ _ _ Hneq Hall), Nat.sub_0_r.
  apply (Forall2_take _ _ _ (N.to_nat (size / 2))) in Hall.
  rewrite take_seq in Hall.
  replace (N.to_nat (size / 2) `min` N.to_nat tree_size)%nat
    with (N.to_nat (N.min (size / 2) tree_size)) in Hall by lia.
  erewrite sampled_block_ids; [done| |exact Hall]. lia.
Qed.

(** C2. Bucket sampling.  Provided [initial_offset + min (size / 2)
    tree_size] does not exceed the range of [block_id]:
    [SampleRandomBucket] returns when the random source does not fail, and
    whenever it returns, the bucket has exactly [tree_size] blocks, exactly
    [min (size / 2) tree_size] of them are [Normal], every [Normal] block
    has its [block_id] in [[initial_offset, initial_offset + size / 2)],
    and no two [Normal] blocks share a [block_id]. *)
Theorem SampleRandomBucket_invariants (uninit : oram_block_t)
    (size tree_size initial_offset : N) (r : R) :
  kNormal defs <> kDummy defs ->
  RandomShuffle_permutes cryptor ->
  initial_offset + N.min (size / 2) tree_size <= 2 ^ 32 ->
  (random_source_reliable cryptor ->
     exists bucket r',
       SampleRandomBucket defs cryptor uninit size tree_size initial_offset r
         = Ret (bucket, r'))
  /\ (forall bucket r',
        SampleRandomBucket defs cryptor uninit size tree_size initial_offset r
          = Ret (bucket, r') ->
        length bucket = N.to_nat tree_size
        /\ count_type (kNormal defs) bucket
           = N.to_nat (N.min (size / 2) tree_size)
        /\ (forall b, b ∈ bucket -> type (header b) = kNormal defs ->
              initial_offset <= block_id (header b)
              /\ block_id (header b) < initial_offset + size / 2)
        /\ NoDup ((fun b => block_id (header b))
                    <$> filter (fun b => type (header b) = kNormal defs)
                          bucket)).
Proof.
  intros Hneq Hperm Hwrap. split; [apply SampleRandomBucket_returns|].
  intros bucket r' Hret.
  destruct (SampleRandomBucket_normal_ids _ _ _ _ _ _ _ Hneq Hperm Hwrap Hret)
    as [Hlen Hids].
  split; [done|]. split; [|split].
  - unfold count_type.
    erewrite <- (length_fmap (fun b => block_id (header b))).
    rewrite Hids. by rewrite length_fmap, length_seq.
  - intros b Hin Ht.
    assert (Hid : block_id (header b) ∈
              (fun k => N.of_nat k + initial_offset)
                <$> seq 0 (N.to_nat (N.min (size / 2) tree_size))).
    { rewrite <- Hids.
      apply (list_elem_of_fmap_2 (fun b => block_id (header b))).
      by apply list_elem_of_filter. }
    apply list_elem_of_fmap in Hid as (k & -> & Hk).
    apply elem_of_seq in Hk. lia.
  - rewrite Hids. apply NoDup_fmap_2; [|apply NoDup_seq].
    intros x y Hxy. lia.
Qed.

(** C6. The payload of the [Dummy] blocks of a sampled bucket: its first
    byte is the low byte of [i + initial_offset], that is of the block's
    [block_id], as for a [Normal] block; the other
    [DEFAULT_ORAM_DATA_SIZE - 1] bytes are drawn from the random source. *)
Theorem SampleRandomBucket_dummy_payload (uninit : oram_block_t)
    (size tree_size initial_offset : N) (r r' : R)
    (bucket : p_oram_bucket_t) :
  RandomBytes_fills cryptor ->
  RandomShuffle_permutes cryptor ->
  block_wf defs uninit ->
  (0 < DEFAULT_ORAM_DATA_SIZE defs)%nat ->
  SampleRandomBucket defs cryptor uninit size tree_size initial_offset r
    = Ret (bucket, r') ->
  forall b, b ∈ bucket -> type (header b) = kDummy defs ->
    exists bytes,
      drawn_from_random_source cryptor (DEFAULT_ORAM_DATA_SIZE defs - 1) bytes
      /\ data b = byte_of_N (block_id (header b)) :: bytes.
Proof.
  intros Hfill Hperm Hwf Hpos Hret b Hin _.
  apply SampleRandomBucket_ret in Hret as (bucket0 & r1 & Hall & Hsh).
  specialize (Hperm _ _ _ _ _ Hsh eq_refl).
  rewrite Hperm in Hin.
  apply list_elem_of_lookup in Hin as (i & Hi).
  destruct (Forall2_lookup_r _ _ _ _ _ Hall Hi) as (k & _ & Hk).
  destruct Hk as (Hid & _ & bytes & Hdrawn & Hdata).
  exists bytes. split; [done|].
  rewrite Hdata, Hid, byte_of_N_to_uint32.
  destruct Hdrawn as (q0 & q1 & Hrand).
  pose proof (Hfill _ _ _ _ _ Hrand eq_refl) as Hlen.
  pose proof (wf_data _ _ Hwf) as Hd.
  destruct (data uninit) as [|d0 d] eqn:Hdu; simpl in Hd; [lia|].
  unfold memcpy_at. simpl.
  rewrite take_ge by lia.
  rewrite drop_ge by lia. by rewrite app_nil_r.
Qed.

End Utilities_facts.

(** ** The compression adapter *)

Lemma to_int_small (n : N) : n < 2 ^ 31 -> to_int n = Z.of_N n.
Proof.
  intros Hn. unfold to_int.
  rewrite Z.mod_small; lia.
Qed.

Lemma size_t_of_int_nonneg (z : Z) :
  (0 <= z < 2 ^ 64)%Z -> size_t_of_int z = Z.to_N z.
Proof. intros Hz. unfold size_t_of_int. by rewrite Z.mod_small. Qed.

Lemma size_t_of_int_negative (e : Z) :
  (- 2 ^ 31 <= e < 0)%Z -> size_t_of_int e = Z.to_N (2 ^ 64 + e).
Proof.
  intros He. unfold size_t_of_int. f_equal.
  rewrite <- (Z.mod_small (2 ^ 64 + e) (2 ^ 64)) by lia.
  rewrite <- (Z_mod_plus_full e 1 (2 ^ 64)). f_equal. lia.
Qed.

Lemma LZ4_compressBound_in_range (n : Z) :
  (0 <= n <= LZ4_MAX_INPUT_SIZE)%Z ->
  LZ4_compressBound n = (n + n / 255 + 16)%Z
  /\ (0 < LZ4_compressBound n < 2 ^ 31)%Z.
Proof.
  intros Hn. unfold LZ4_compressBound, LZ4_MAX_INPUT_SIZE in *.
  replace (n <? 0)%Z with false by (symmetry; apply Z.ltb_ge; lia).
  replace (2113929216 <? n)%Z with false by (symmetry; apply Z.ltb_ge; lia).
  simpl. split; [done|].
  pose proof (Z.div_pos n 255 ltac:(lia) ltac:(lia)).
  assert (n / 255 <= 2113929216 / 255)%Z by (apply Z.div_le_mono; lia).
  change (2113929216 / 255)%Z with 8289918%Z in *. lia.
Qed.

Lemma run_decode_encode (src : list byte) :
  (Z.of_nat (length src) < 2 ^ 32)%Z -> run_decode (run_encode src) = Some src.
Proof.
  intros Hlen. unfold run_encode.
  destruct (decide (src = replicate (length src) Byte.x00)) as [Hz|Hz].
  - rewrite bool_decide_eq_true_2 by done. unfold run_decode.
    rewrite bool_decide_eq_true_2 by done.
    rewrite uint32_of_to_bytes by lia.
    rewrite Nat2N.id. by rewrite <- Hz.
  - rewrite bool_decide_eq_false_2 by done. done.
Qed.

Lemma length_run_encode (src : list byte) :
  (0 < length (run_encode src) <= length src + 5)%nat.
Proof.
  unfold run_encode.
  destruct (bool_decide (src = replicate (length src) Byte.x00)); simpl; lia.
Qed.

Lemma run_codec_contract : LZ4_contract run_codec.
Proof.
  intros src cap Hmax Hcap. simpl.
  destruct (LZ4_compressBound_in_range (Z.of_nat (length src))) as [Hb Hbr];
    [lia|].
  rewrite Nat2Z.id, take_ge by lia.
  pose proof (length_run_encode src) as Hz.
  exists (run_encode src).
  replace (Z.of_nat (length (run_encode src)) <=? cap)%Z with true
    by (symmetry; apply Z.leb_le;
        pose proof (Z.div_pos (Z.of_nat (length src)) 255); lia).
  split; [done|]. split; [lia|].
  split; [pose proof (Z.div_pos (Z.of_nat (length src)) 255); lia|].
  intros cap'. rewrite Nat2Z.id, take_ge by lia.
  rewrite run_decode_encode by (unfold LZ4_MAX_INPUT_SIZE in Hmax; lia).
  destruct (Z.of_nat (length src) <=? cap')%Z eqn:Hc; [done|].
  exists (-1)%Z, []. repeat split; simpl; lia.
Qed.

Section Compression_facts.
Variable lz4 : LZ4.
Hypothesis lz4_ok : LZ4_contract lz4.

(** [DataCompress] on a payload that LZ4 accepts: it returns the
    compressed bytes and their number. *)
Lemma DataCompress_ok (p : list byte) :
  (Z.of_nat (length p) <= LZ4_MAX_INPUT_SIZE)%Z ->
  exists z,
    DataCompress lz4 p (N.of_nat (length p)) = Ret (N.of_nat (length z), z)
    /\ (0 < length z)%nat
    /\ (Z.of_nat (length z) < 2 ^ 31)%Z
    /\ forall cap' : Z,
         if (Z.of_nat (length p) <=? cap')%Z
         then LZ4_decompress_safe lz4 z (Z.of_nat (length z)) cap'
                = (Z.of_nat (length p), p)
         else exists e out,
                LZ4_decompress_safe lz4 z (Z.of_nat (length z)) cap' = (e, out)
                /\ (- 2 ^ 31 <= e < 0)%Z
                /\ (Z.of_nat (length out) <= Z.max 0 cap')%Z.
Proof.
  intros Hmax.
  destruct (LZ4_compressBound_in_range (Z.of_nat (length p))) as [Hb Hbr];
    [lia|].
  unfold LZ4_MAX_INPUT_SIZE in Hmax.
  destruct (lz4_ok p (LZ4_compressBound (Z.of_nat (length p))))
    as (z & Hc & Hpos & Hle & Hdec); [done|lia|].
  exists z. unfold DataCompress.
  rewrite to_int_small by lia.
  rewrite nat_N_Z.
  rewrite size_t_of_int_nonneg by lia.
  rewrite to_int_small by lia.
  rewrite Z2N.id by lia.
  rewrite Hc.
  rewrite size_t_of_int_nonneg by lia.
  replace (Z.to_N (Z.of_nat (length z))) with (N.of_nat (length z)) by lia.
  replace (N.of_nat (length z) =? 0) with false
    by (symmetry; apply N.eqb_neq; lia).
  repeat split; [done|lia|done].
Qed.

(** Round trip of the adapter when twice the compressed size is enough
    for the payload. *)
Lemma DataCompress_DataDecompress_roundtrip (p z : list byte) (c : N) :
  (0 < length p)%nat ->
  (Z.of_nat (length p) <= LZ4_MAX_INPUT_SIZE)%Z ->
  DataCompress lz4 p (N.of_nat (length p)) = Ret (c, z) ->
  N.of_nat (length p) <= 2 * c ->
  2 * c < 2 ^ 31 ->
  DataDecompress lz4 z c = Ret (N.of_nat (length p), p).
Proof.
  intros Hpos Hmax Hcomp Hcap Hint.
  destruct (DataCompress_ok p Hmax) as (z' & Hc & Hz & Hzr & Hdec).
  rewrite Hc in Hcomp. injection Hcomp as <- <-.
  unfold DataDecompress, to_size_t.
  rewrite (N.mod_small _ (2 ^ 64)) by lia.
  rewrite !to_int_small by lia.
  rewrite nat_N_Z.
  specialize (Hdec (Z.of_N (N.of_nat (length z') * 2))).
  replace (Z.of_nat (length p) <=? Z.of_N (N.of_nat (length z') * 2))%Z
    with true in Hdec by (symmetry; apply Z.leb_le; lia).
  rewrite Hdec.
  rewrite size_t_of_int_nonneg by lia.
  replace (Z.to_N (Z.of_nat (length p))) with (N.of_nat (length p)) by lia.
  by replace (N.of_nat (length p) =? 0) with false
    by (symmetry; apply N.eqb_neq; lia).
Qed.

(** C5. The round trip of the adapter is lost on a payload that LZ4
    compresses to less than half of its size: [DataDecompress] offers
    twice the compressed size as the capacity, the decompressor stops
    with a negative error code, which is not zero once converted to
    [size_t]; so the fatal branch is not taken, a size is returned that
    is not the size of the payload, and the output is not the payload. *)
Theorem DataDecompress_loses_compressible_payload (p z : list byte) (c : N) :
  (Z.of_nat (length p) <= LZ4_MAX_INPUT_SIZE)%Z ->
  DataCompress lz4 p (N.of_nat (length p)) = Ret (c, z) ->
  2 * c < N.of_nat (length p) ->
  exists sz out,
    DataDecompress lz4 z c = Ret (sz, out)
    /\ out <> p
    /\ sz <> N.of_nat (length p).
Proof.
  intros Hmax Hcomp Hcap.
  destruct (DataCompress_ok p Hmax) as (z' & Hc & Hz & Hzr & Hdec).
  rewrite Hc in Hcomp. injection Hcomp as <- <-.
  unfold LZ4_MAX_INPUT_SIZE in Hmax.
  unfold DataDecompress, to_size_t.
  rewrite (N.mod_small _ (2 ^ 64)) by lia.
  rewrite !to_int_small by lia.
  rewrite nat_N_Z.
  specialize (Hdec (Z.of_N (N.of_nat (length z') * 2))).
  replace (Z.of_nat (length p) <=? Z.of_N (N.of_nat (length z') * 2))%Z
    with false in Hdec by (symmetry; apply Z.leb_gt; lia).
  destruct Hdec as (e & out & -> & He & Hout).
  rewrite size_t_of_int_negative by done.
  replace (Z.to_N (2 ^ 64 + e) =? 0) with false
    by (symmetry; apply N.eqb_neq; lia).
  eexists _, out. split; [done|]. split.
  - intros ->. lia.
  - lia.
Qed.

End Compression_facts.

(** ** The flat server storage *)

(** A call sees its argument modulo [2^32] only. *)
Lemma InRange_converts_argument (self : oram_impl.SqrtOramServerStorage)
    (pos : N) :
  oram_impl.InRange self pos = oram_impl.InRange self (to_uint32 pos).
Proof.
  unfold oram_impl.InRange, to_uint32. by rewrite N.Div0.mod_mod.
Qed.

(** C9. For every position [pos] (a [uint32_t], so below [2^32]),
    [SqrtOramServerStorage::InRange(pos)] is true exactly when
    [pos < block_size_], and false exactly when [block_size_ <= pos]. *)
Theorem InRange_iff (self : oram_impl.SqrtOramServerStorage) (pos : N) :
  pos < 2 ^ 32 ->
  (oram_impl.InRange self pos = true
   <-> pos < oram_impl.block_size_ (oram_impl.base self))
  /\ (oram_impl.InRange self pos = false
      <-> oram_impl.block_size_ (oram_impl.base self) <= pos).
Proof.
  intros Hpos. unfold oram_impl.InRange, to_uint32.
  rewrite N.mod_small by exact Hpos.
  split; [apply N.ltb_lt|apply N.ltb_ge].
Qed.

(** ** The definitions run on small inputs *)

Lemma sample_block_wf : block_wf small_defs sample_block.
Proof. by constructor. Qed.

Lemma zero_block_wf (defs : oram_defs) : block_wf defs (zero_block defs).
Proof. constructor; simpl; [done|done|done|by rewrite length_replicate]. Qed.

Lemma const_cryptor_fills (c : byte) : RandomBytes_fills (const_cryptor c).
Proof.
  intros n r st bs r1 Hcall _. simpl in Hcall.
  injection Hcall as _ <- _. by rewrite length_replicate.
Qed.

Lemma const_cryptor_permutes (c : byte) :
  RandomShuffle_permutes (const_cryptor c).
Proof.
  intros l r st l' r1 Hcall _. simpl in Hcall.
  injection Hcall as _ <- _. apply reverse_Permutation.
Qed.

Lemma const_cryptor_reliable (c : byte) :
  random_source_reliable (const_cryptor c).
Proof. by split. Qed.

(** C3.  On the code, [PadStash] on the empty stash with the target 1,
    with a random source that emits the byte of [kNormal]: the block that
    is appended has the type [Normal], not [Dummy]. *)
Theorem PadStash_appends_block_of_random_type :
  exists b,
    PadStash small_defs (const_cryptor (kNormal small_defs))
      (zero_block small_defs) [] 1 tt = Ret ([b], tt)
    /\ type (header b) = kNormal small_defs
    /\ type (header b) <> kDummy small_defs.
Proof.
  eexists. split; [vm_compute; reflexivity|]. by split.
Qed.

(** C2, the statement as it stands fails: with [size = 6],
    [tree_size = 2] and [initial_offset = 2^64 - 1] the bucket has 2
    [Normal] blocks, not [6 / 2], and the one of the round [i = 1], where
    [i + initial_offset] wraps around as a [size_t], has the identifier 0,
    which is not in [[initial_offset, initial_offset + 3)]. *)
Lemma SampleRandomBucket_count_counterexample :
  exists bucket,
    SampleRandomBucket small_defs (const_cryptor Byte.xff)
      (zero_block small_defs) 6 2 (2 ^ 64 - 1) tt = Ret (bucket, tt)
    /\ length bucket = 2%nat
    /\ count_type (kNormal small_defs) bucket = 2%nat
    /\ count_type (kNormal small_defs) bucket <> N.to_nat (6 / 2)
    /\ exists b, b ∈ bucket
         /\ type (header b) = kNormal small_defs
         /\ block_id (header b) = 0
         /\ ~ (2 ^ 64 - 1 <= block_id (header b)).
Proof.
  eexists. split; [vm_compute; reflexivity|].
  split; [done|]. split; [done|]. split.
  - vm_compute. discriminate.
  - eexists. split; [apply list_elem_of_here|]. split; [done|].
    split; [done|]. vm_compute. by intros H.
Qed.

(** C6, the statement as it stands fails: with a random source that only
    ever emits the byte 255, the [Dummy] block of
    [SampleRandomBucket(0, 1, 7)] has the payload 7, 255, 255, 255: its
    first byte was not drawn from the random source. *)
Lemma SampleRandomBucket_dummy_counterexample :
  exists b,
    SampleRandomBucket small_defs (const_cryptor Byte.xff)
      (zero_block small_defs) 0 1 7 tt = Ret ([b], tt)
    /\ type (header b) = kDummy small_defs
    /\ (forall n r, Forall (eq Byte.xff)
          (snd (fst (RandomBytes (const_cryptor Byte.xff) n r))))
    /\ data b !! 0%nat = Some Byte.x07
    /\ ~ drawn_from_random_source (const_cryptor Byte.xff)
           (DEFAULT_ORAM_DATA_SIZE small_defs) (data b).
Proof.
  eexists. split; [vm_compute; reflexivity|]. split; [done|]. split; [|split].
  - intros n r. simpl. by apply Forall_replicate.
  - done.
  - intros (r0 & r1 & Hcall). vm_compute in Hcall. discriminate Hcall.
Qed.

(** *** Witnesses *)

Lemma EncryptBlock_DecryptBlock_roundtrip_witness :
  Decrypt_inverts_Encrypt small_defs (const_cryptor Byte.xff)
  /\ block_wf small_defs sample_block
  /\ type (header sample_block) = kNormal small_defs
  /\ EncryptBlock_calls_succeed small_defs (const_cryptor Byte.xff)
       sample_block tt
  /\ exists b' r' b'',
       EncryptBlock small_defs (const_cryptor Byte.xff) sample_block tt
         = Ret (b', r')
       /\ DecryptBlock small_defs (const_cryptor Byte.xff) b' = Ret b''
       /\ data b'' = data sample_block.
Proof.
  split; [apply const_cryptor_inverts|].
  split; [apply sample_block_wf|].
  split; [reflexivity|].
  split; [by split|].
  destruct (EncryptBlock_DecryptBlock_roundtrip small_defs
              (const_cryptor Byte.xff) sample_block tt
              (const_cryptor_inverts _ _) sample_block_wf) as [Hnormal _].
  destruct (Hnormal eq_refl) as [Hok _].
  destruct (Hok (conj eq_refl eq_refl)) as (b' & r' & b'' & He & Hd & Hdata & _).
  by exists b', r', b''.
Defined.

Lemma codec_frame_witness :
  type (header sample_block) = kNormal small_defs
  /\ (forall b' r',
        EncryptBlock small_defs (const_cryptor Byte.xff) sample_block tt
          = Ret (b', r') ->
        block_id (header b') = 258 /\ type (header b') = Byte.x01).
Proof.
  split; [reflexivity|]. intros b' r' He.
  exact (proj1 (codec_frame small_defs (const_cryptor Byte.xff)
                  sample_block b' tt r' eq_refl) He).
Defined.

Lemma SampleRandomBucket_invariants_witness :
  kNormal small_defs <> kDummy small_defs
  /\ RandomShuffle_permutes (const_cryptor Byte.xff)
  /\ 100 + N.min (4 / 2) 4 <= 2 ^ 32
  /\ random_source_reliable (const_cryptor Byte.xff)
  /\ exists bucket r',
       SampleRandomBucket small_defs (const_cryptor Byte.xff)
         (zero_block small_defs) 4 4 100 tt = Ret (bucket, r')
       /\ length bucket = 4%nat
       /\ count_type (kNormal small_defs) bucket = 2%nat.
Proof.
  assert (Hneq : kNormal small_defs <> kDummy small_defs) by done.
  assert (Hwrap : 100 + N.min (4 / 2) 4 <= 2 ^ 32) by (vm_compute; discriminate).
  split; [exact Hneq|].
  split; [apply const_cryptor_permutes|].
  split; [exact Hwrap|].
  split; [apply const_cryptor_reliable|].
  destruct (SampleRandomBucket_invariants small_defs (const_cryptor Byte.xff)
              (zero_block small_defs) 4 4 100 tt Hneq
              (const_cryptor_permutes _) Hwrap) as [Hret Hinv].
  destruct (Hret (const_cryptor_reliable _)) as (bucket & r' & Hs).
  destruct (Hinv bucket r' Hs) as (Hlen & Hcount & _).
  exists bucket, r'. by repeat split.
Defined.

Lemma SampleRandomBucket_dummy_payload_witness :
  RandomBytes_fills (const_cryptor Byte.xff)
  /\ RandomShuffle_permutes (const_cryptor Byte.xff)
  /\ block_wf small_defs (zero_block small_defs)
  /\ (0 < DEFAULT_ORAM_DATA_SIZE small_defs)%nat
  /\ forall bucket r',
       SampleRandomBucket small_defs (const_cryptor Byte.xff)
         (zero_block small_defs) 0 1 7 tt = Ret (bucket, r') ->
       forall b, b ∈ bucket -> type (header b) = kDummy small_defs ->
         exists bytes,
           drawn_from_random_source (const_cryptor Byte.xff) 3 bytes
           /\ data b = byte_of_N (block_id (header b)) :: bytes.
Proof.
  assert (Hpos : (0 < DEFAULT_ORAM_DATA_SIZE small_defs)%nat) by (simpl; lia).
  split; [apply const_cryptor_fills|].
  split; [apply const_cryptor_permutes|].
  split; [apply zero_block_wf|].
  split; [exact Hpos|].
  intros bucket r' Hs.
  exact (SampleRandomBucket_dummy_payload small_defs (const_cryptor Byte.xff)
           (zero_block small_defs) 0 1 7 tt r' bucket
           (const_cryptor_fills _) (const_cryptor_permutes _)
           (zero_block_wf _) Hpos Hs).
Defined.

Lemma Deserialize_Serialize_roundtrip_witness :
  Forall (block_wf small_defs) [sample_block; zero_block small_defs]
  /\ DeserializeFromStringVector small_defs (zero_block small_defs)
       (SerializeToStringVector small_defs
          [sample_block; zero_block small_defs])
     = Ret [sample_block; zero_block small_defs].
Proof.
  assert (Hwf : Forall (block_wf small_defs)
                  [sample_block; zero_block small_defs]).
  { repeat constructor. }
  split; [exact Hwf|].
  exact (Deserialize_Serialize_roundtrip small_defs (zero_block small_defs)
           [sample_block; zero_block small_defs] Hwf).
Defined.

Lemma ConvertToString_fixed_size_witness :
  block_wf small_defs sample_block
  /\ length (ConvertToString small_defs sample_block []) = 37%nat.
Proof.
  split; [apply sample_block_wf|].
  exact (proj1 (ConvertToString_fixed_size small_defs sample_block []
                  sample_block_wf)).
Defined.

Lemma Deserialize_fatal_iff_bad_length_witness :
  DeserializeFromStringVector small_defs (zero_block small_defs)
    [[Byte.x00; Byte.x01]] = Abort "Invalid data size".
Proof.
  apply (proj1 (Deserialize_fatal_iff_bad_length small_defs
                  (zero_block small_defs) [[Byte.x00; Byte.x01]])).
  apply Exists_cons_hd. simpl. unfold ORAM_BLOCK_SIZE, HEADER_SIZE. simpl. lia.
Defined.

Lemma InRange_iff_witness :
  3 < 2 ^ 32
  /\ oram_impl.InRange (oram_impl.new_SqrtOramServerStorage 1 16 8 4 "hash") 3
     = true
  /\ 8 < 2 ^ 32
  /\ oram_impl.InRange (oram_impl.new_SqrtOramServerStorage 1 16 8 4 "hash") 8
     = false.
Proof.
  assert (H3 : 3 < 2 ^ 32) by reflexivity.
  assert (H8 : 8 < 2 ^ 32) by reflexivity.
  split; [exact H3|]. split.
  - apply (proj2 (proj1 (InRange_iff
                           (oram_impl.new_SqrtOramServerStorage 1 16 8 4 "hash")
                           3 H3))).
    reflexivity.
  - split; [exact H8|].
    apply (proj2 (proj2 (InRange_iff
                           (oram_impl.new_SqrtOramServerStorage 1 16 8 4 "hash")
                           8 H8))).
    vm_compute. discriminate.
Defined.

Lemma DataDecompress_loses_compressible_payload_witness :
  LZ4_contract run_codec
  /\ (Z.of_nat (length (replicate 37 Byte.x00)) <= LZ4_MAX_INPUT_SIZE)%Z
  /\ DataCompress run_codec (replicate 37 Byte.x00) 37
       = Ret (5, [Byte.x00; Byte.x25; Byte.x00; Byte.x00; Byte.x00])
  /\ 2 * 5 < 37
  /\ exists sz out,
       DataDecompress run_codec
         [Byte.x00; Byte.x25; Byte.x00; Byte.x00; Byte.x00] 5 = Ret (sz, out)
       /\ out <> replicate 37 Byte.x00
       /\ sz <> 37.
Proof.
  assert (Hmax : (Z.of_nat (length (replicate 37 Byte.x00))
                  <= LZ4_MAX_INPUT_SIZE)%Z) by (vm_compute; discriminate).
  assert (Hc : DataCompress run_codec (replicate 37 Byte.x00) 37
               = Ret (5, [Byte.x00; Byte.x25; Byte.x00; Byte.x00; Byte.x00]))
    by (vm_compute; reflexivity).
  assert (Hlt : 2 * 5 < 37) by reflexivity.
  split; [apply run_codec_contract|].
  split; [exact Hmax|]. split; [exact Hc|]. split; [exact Hlt|].
  exact (DataDecompress_loses_compressible_payload run_codec
           run_codec_contract (replicate 37 Byte.x00) _ 5 Hmax Hc Hlt).
Defined.

(** * Further properties of the utilities *)

(** ** Bytes to block and back *)

Lemma byte_of_N_add_mul (b : byte) (x : N) :
  byte_of_N (Byte.to_N b + 256 * x) = b.
Proof.
  rewrite <- (byte_of_N_to_N b) at 2.
  unfold byte_of_N.
  by rewrite (N.mul_comm 256), N.Div0.mod_add.
Qed.

Lemma uint_to_of_bytes (bs : list byte) :
  uint_to_bytes (length bs) (uint_of_bytes bs) = bs.
Proof.
  induction bs as [|b bs IH]; [done|].
  cbn [length uint_of_bytes uint_to_bytes].
  rewrite byte_of_N_add_mul. f_equal.
  pose proof (Byte.to_N_bounded b).
  rewrite (N.mul_comm 256), N.div_add by lia.
  rewrite N.div_small by lia. exact IH.
Qed.

Lemma uint_of_bytes_bound (bs : list byte) :
  uint_of_bytes bs < 256 ^ N.of_nat (length bs).
Proof.
  induction bs as [|b bs IH]; [done|].
  cbn [length uint_of_bytes].
  replace (N.of_nat (S (length bs))) with (N.succ (N.of_nat (length bs)))
    by lia.
  rewrite N.pow_succ_r by lia.
  pose proof (Byte.to_N_bounded b). lia.
Qed.

Section Layout_facts.
Variable defs : oram_defs.

Lemma block_of_bytes_wf (s : list byte) :
  (ORAM_BLOCK_SIZE defs <= length s)%nat ->
  block_wf defs (block_of_bytes defs s).
Proof.
  unfold ORAM_BLOCK_SIZE, HEADER_SIZE. intros Hs.
  constructor; simpl.
  - pose proof (uint_of_bytes_bound (take 4 s)) as Hb.
    rewrite length_take in Hb.
    replace (4 `min` length s)%nat with 4%nat in Hb by lia.
    exact Hb.
  - rewrite length_take, length_drop. lia.
  - rewrite length_take, length_drop. lia.
  - rewrite length_take, length_drop. lia.
Qed.

Lemma block_bytes_block_of_bytes (s : list byte) :
  length s = ORAM_BLOCK_SIZE defs ->
  block_bytes (block_of_bytes defs s) = s.
Proof.
  unfold ORAM_BLOCK_SIZE, HEADER_SIZE. intros Hs.
  unfold block_bytes, block_of_bytes. cbn [header data block_id type iv mac_tag].
  pose proof (uint_to_of_bytes (take 4 s)) as Hid.
  rewrite length_take in Hid.
  replace (4 `min` length s)%nat with 4%nat in Hid by lia.
  rewrite Hid.
  destruct (lookup_lt_is_Some_2 s 4 ltac:(lia)) as [t Ht].
  rewrite (nth_lookup_Some _ _ _ _ Ht).
  rewrite (take_ge (drop 33 s)) by (rewrite length_drop; lia).
  replace (drop 33 s) with (drop 16 (drop 17 s)) by (by rewrite drop_drop).
  rewrite take_drop.
  replace (drop 17 s) with (drop 12 (drop 5 s)) by (by rewrite drop_drop).
  rewrite take_drop.
  change ([t] ++ drop 5 s) with (t :: drop 5 s).
  rewrite <- (drop_S _ _ _ Ht).
  apply take_drop.
Qed.

Lemma block_of_bytes_app (d rest : list byte) :
  (ORAM_BLOCK_SIZE defs <= length d)%nat ->
  block_of_bytes defs (d ++ rest) = block_of_bytes defs d.
Proof.
  unfold ORAM_BLOCK_SIZE, HEADER_SIZE. intros Hd.
  unfold block_of_bytes.
  rewrite (take_app_le d rest 4) by lia.
  rewrite (app_nth1 d rest) by lia.
  rewrite !(drop_app_le d rest) by lia.
  rewrite !take_app_le by (rewrite length_drop; lia).
  done.
Qed.

End Layout_facts.

(** ** Serialization, the other way round *)

Section Serialization_more.
Variable defs : oram_defs.

Lemma ConvertToBlock_eq (d : list byte) (uninit : oram_block_t) :
  length d = ORAM_BLOCK_SIZE defs ->
  ConvertToBlock defs d uninit = Ret (block_of_bytes defs d).
Proof.
  intros Hd. rewrite ConvertToBlock_ok by done.
  rewrite memcpy_eq, take_ge by lia.
  by rewrite block_of_bytes_app by lia.
Qed.

Lemma deserialize_loop_eq (uninit : oram_block_t) (data : list (list byte))
    (ans : p_oram_bucket_t) :
  Forall (fun s => length s = ORAM_BLOCK_SIZE defs) data ->
  deserialize_loop defs uninit data ans
    = Ret (ans ++ map (block_of_bytes defs) data).
Proof.
  intros Hall. revert ans.
  induction Hall as [|d data Hd _ IH]; intros ans; simpl.
  - by rewrite app_nil_r.
  - rewrite ConvertToBlock_eq by done. simpl.
    rewrite IH. by rewrite <- app_assoc.
Qed.

Lemma deserialize_loop_acc (uninit : oram_block_t) (data : list (list byte))
    (ans : p_oram_bucket_t) :
  deserialize_loop defs uninit data ans
    = obind (deserialize_loop defs uninit data [])
            (fun bucket => Ret (ans ++ bucket)).
Proof.
  destruct (decide (Forall (fun s => length s = ORAM_BLOCK_SIZE defs) data))
    as [Hall|Hnot].
  - by rewrite !deserialize_loop_eq.
  - assert (Hex : Exists (fun s => length s <> ORAM_BLOCK_SIZE defs) data).
    { apply not_Forall_Exists in Hnot; [exact Hnot|]. intros s. apply _. }
    by rewrite !deserialize_loop_panic.
Qed.

Lemma Deserialize_ret_inv (uninit : oram_block_t) (data : list (list byte))
    (bucket : p_oram_bucket_t) :
  DeserializeFromStringVector defs uninit data = Ret bucket ->
  Forall (fun s => length s = ORAM_BLOCK_SIZE defs) data
  /\ bucket = map (block_of_bytes defs) data.
Proof.
  unfold DeserializeFromStringVector. intros Hret.
  destruct (decide (Forall (fun s => length s = ORAM_BLOCK_SIZE defs) data))
    as [Hall|Hnot].
  - rewrite deserialize_loop_eq in Hret by done.
    injection Hret as <-. done.
  - assert (Hex : Exists (fun s => length s <> ORAM_BLOCK_SIZE defs) data).
    { apply not_Forall_Exists in Hnot; [exact Hnot|]. intros s. apply _. }
    by rewrite deserialize_loop_panic in Hret.
Qed.

(** X1. Strings of the block size survive the round trip through
    blocks: [DeserializeFromStringVector] returns a bucket that
    [SerializeToStringVector] turns back into the very same strings. *)
Theorem Serialize_Deserialize_roundtrip (uninit : oram_block_t)
    (data : list (list byte)) :
  Forall (fun s => length s = ORAM_BLOCK_SIZE defs) data ->
  exists bucket,
    DeserializeFromStringVector defs uninit data = Ret bucket
    /\ SerializeToStringVector defs bucket = data.
Proof.
  intros Hall. exists (map (block_of_bytes defs) data). split.
  - unfold DeserializeFromStringVector. by rewrite deserialize_loop_eq.
  - unfold SerializeToStringVector. rewrite serialize_loop_eq. simpl.
    induction Hall as [|d data Hd _ IH]; [done|]. simpl in *.
    rewrite IH. f_equal.
    rewrite ConvertToString_eq by (apply block_of_bytes_wf; lia).
    by apply block_bytes_block_of_bytes.
Qed.

(** X2. Whatever bucket [DeserializeFromStringVector] returns has one
    block for each input string, and each block is a valid block: its
    [block_id] fits 32 bits, [iv] has 12 bytes, [mac_tag] 16 and the
    payload [DEFAULT_ORAM_DATA_SIZE]. *)
Theorem Deserialize_blocks_wf (uninit : oram_block_t)
    (data : list (list byte)) (bucket : p_oram_bucket_t) :
  DeserializeFromStringVector defs uninit data = Ret bucket ->
  length bucket = length data /\ Forall (block_wf defs) bucket.
Proof.
  intros Hret. apply Deserialize_ret_inv in Hret as [Hall ->].
  split; [by rewrite length_map|].
  apply Forall_fmap. eapply Forall_impl; [exact Hall|].
  intros d Hd. simpl in Hd. apply block_of_bytes_wf. lia.
Qed.

(** X3. The outcome of [DeserializeFromStringVector] does not depend on
    what the uninitialised local [block] holds: [ConvertToBlock]
    overwrites all of it. *)
Theorem Deserialize_ignores_uninit (u1 u2 : oram_block_t)
    (data : list (list byte)) :
  DeserializeFromStringVector defs u1 data
    = DeserializeFromStringVector defs u2 data.
Proof.
  unfold DeserializeFromStringVector.
  destruct (decide (Forall (fun s => length s = ORAM_BLOCK_SIZE defs) data))
    as [Hall|Hnot].
  - by rewrite !deserialize_loop_eq.
  - assert (Hex : Exists (fun s => length s <> ORAM_BLOCK_SIZE defs) data).
    { apply not_Forall_Exists in Hnot; [exact Hnot|]. intros s. apply _. }
    by rewrite !deserialize_loop_panic.
Qed.

(** X4. Deserialization goes string by string, from the left:
    deserializing [d1 ++ d2] is deserializing [d1], then [d2], and
    appending the buckets; a bad string in [d1] aborts before [d2] is
    looked at. *)
Theorem Deserialize_app (uninit : oram_block_t) (d1 d2 : list (list byte)) :
  DeserializeFromStringVector defs uninit (d1 ++ d2)
    = obind (DeserializeFromStringVector defs uninit d1) (fun b1 =>
      obind (DeserializeFromStringVector defs uninit d2) (fun b2 =>
      Ret (b1 ++ b2))).
Proof.
  unfold DeserializeFromStringVector.
  assert (Hgen : forall ans,
    deserialize_loop defs uninit (d1 ++ d2) ans
      = obind (deserialize_loop defs uninit d1 ans)
              (fun b1 => deserialize_loop defs uninit d2 b1)).
  { induction d1 as [|d d1 IH]; intros ans; simpl; [done|].
    destruct (ConvertToBlock defs d uninit) as [b| |]; simpl; [|done..].
    apply IH. }
  rewrite Hgen.
  destruct (deserialize_loop defs uninit d1 []) as [b1| |]; simpl; [|done..].
  apply deserialize_loop_acc.
Qed.

(** X5. Serialization loses nothing: two buckets of valid blocks with
    the same serialized strings are the same bucket. *)
Theorem Serialize_injective (b1 b2 : p_oram_bucket_t) :
  Forall (block_wf defs) b1 ->
  Forall (block_wf defs) b2 ->
  SerializeToStringVector defs b1 = SerializeToStringVector defs b2 ->
  b1 = b2.
Proof.
  unfold SerializeToStringVector. rewrite !serialize_loop_eq. simpl.
  intros Hwf1 Hwf2 Heq.
  pose proof (deserialize_loop_serialized defs (zero_block defs) b1 [] Hwf1)
    as H1.
  pose proof (deserialize_loop_serialized defs (zero_block defs) b2 [] Hwf2)
    as H2.
  rewrite Heq, H2 in H1. by injection H1.
Qed.

End Serialization_more.

Lemma Serialize_Deserialize_roundtrip_witness :
  Forall (fun s => length s = ORAM_BLOCK_SIZE small_defs)
         [replicate 37 Byte.x07; replicate 37 Byte.xff]
  /\ exists bucket,
       DeserializeFromStringVector small_defs (zero_block small_defs)
         [replicate 37 Byte.x07; replicate 37 Byte.xff] = Ret bucket
       /\ SerializeToStringVector small_defs bucket
          = [replicate 37 Byte.x07; replicate 37 Byte.xff].
Proof.
  assert (Hall : Forall (fun s => length s = ORAM_BLOCK_SIZE small_defs)
                   [replicate 37 Byte.x07; replicate 37 Byte.xff])
    by (repeat constructor).
  split; [exact Hall|].
  exact (Serialize_Deserialize_roundtrip small_defs (zero_block small_defs)
           _ Hall).
Defined.

Lemma Deserialize_blocks_wf_witness :
  DeserializeFromStringVector small_defs (zero_block small_defs)
    [replicate 37 Byte.x07]
    = Ret [block_of_bytes small_defs (replicate 37 Byte.x07)]
  /\ Forall (block_wf small_defs)
       [block_of_bytes small_defs (replicate 37 Byte.x07)].
Proof.
  assert (Hret : DeserializeFromStringVector small_defs (zero_block small_defs)
                   [replicate 37 Byte.x07]
                 = Ret [block_of_bytes small_defs (replicate 37 Byte.x07)])
    by (vm_compute; reflexivity).
  split; [exact Hret|].
  exact (proj2 (Deserialize_blocks_wf small_defs (zero_block small_defs)
                  _ _ Hret)).
Defined.

Lemma Serialize_injective_witness :
  Forall (block_wf small_defs) [sample_block]
  /\ (forall b2, Forall (block_wf small_defs) b2 ->
        SerializeToStringVector small_defs [sample_block]
          = SerializeToStringVector small_defs b2 ->
        [sample_block] = b2).
Proof.
  assert (Hwf : Forall (block_wf small_defs) [sample_block])
    by (repeat constructor).
  split; [exact Hwf|].
  intros b2 Hwf2. exact (Serialize_injective small_defs _ b2 Hwf Hwf2).
Defined.

(** ** The block codec, outcome by outcome *)

Section Codec_more.
Context {R : Type}.
Variable defs : oram_defs.
Variable cryptor : Cryptor R.

(** The buffer that [DecryptBlock] hands to [Decrypt]. *)
Lemma DecryptBlock_buffer (b : oram_block_t) :
  block_wf defs b ->
  memcpy_at
    (memcpy (replicate (DEFAULT_ORAM_DATA_SIZE defs + 16) Byte.x00)
       (data b) (DEFAULT_ORAM_DATA_SIZE defs))
    (DEFAULT_ORAM_DATA_SIZE defs) (mac_tag (header b)) 16
  = data b ++ mac_tag (header b).
Proof.
  intros [_ _ Hmac Hdata]. rewrite memcpy_eq. unfold memcpy_at.
  rewrite (take_ge (data b)) by lia.
  rewrite take_app_length' by done.
  rewrite (take_ge (mac_tag (header b))) by lia.
  rewrite drop_ge
    by (rewrite length_app, length_drop, length_replicate; lia).
  by rewrite app_nil_r.
Qed.

(** X6. [EncryptBlock] keeps blocks valid: when the random source fills
    the buffers it is given, the block [EncryptBlock] returns has again a
    12-byte [iv], a 16-byte [mac_tag] and a payload of
    [DEFAULT_ORAM_DATA_SIZE] bytes, whatever ciphertext the provider
    gave. *)
Theorem EncryptBlock_preserves_wf (b b' : oram_block_t) (r r' : R) :
  RandomBytes_fills cryptor ->
  block_wf defs b ->
  EncryptBlock defs cryptor b r = Ret (b', r') ->
  block_wf defs b'.
Proof.
  intros Hfill Hwf.
  unfold EncryptBlock, bind, call, lift, ret, undefined, CheckStatus.
  destruct (bool_decide (type (header b) = kNormal defs)); simpl.
  2: { by intros [= <- <-]. }
  destruct (RandomBytes cryptor 12 r) as [[st bytes] r1] eqn:Hrand; simpl.
  destruct (decide (st = kOK)) as [->|Hst];
    [|by rewrite bool_decide_eq_false_2].
  simpl.
  destruct (Encrypt cryptor _ _ _) as [st2 enc]; simpl.
  destruct (bool_decide (st2 = kOK)); simpl; [|done].
  destruct (Nat.ltb_spec (length enc) 16); [done|].
  destruct (Nat.ltb_spec (DEFAULT_ORAM_DATA_SIZE defs) (length enc - 16));
    [done|].
  intros [= <- <-].
  pose proof (Hfill _ _ _ _ _ Hrand eq_refl) as Hbytes.
  destruct Hwf as [Hid Hiv Hmac Hdata].
  constructor; simpl; [done|..]; rewrite memcpy_eq, length_app, length_take,
    !length_drop; lia.
Qed.

(** X7. [DecryptBlock] keeps blocks valid, also when the provider gives
    a plaintext shorter than the payload. *)
Theorem DecryptBlock_preserves_wf (b b' : oram_block_t) :
  block_wf defs b ->
  DecryptBlock defs cryptor b = Ret b' ->
  block_wf defs b'.
Proof.
  intros Hwf. unfold DecryptBlock, CheckStatus.
  destruct (bool_decide (type (header b) = kNormal defs)); simpl.
  2: { by intros [= <-]. }
  destruct (Decrypt cryptor _ _ _) as [st dec]; simpl.
  destruct (bool_decide (st = kOK)); simpl; [|done].
  destruct (Nat.ltb_spec (DEFAULT_ORAM_DATA_SIZE defs) (length dec)); [done|].
  intros [= <-].
  destruct Hwf as [Hid Hiv Hmac Hdata].
  constructor; simpl; [done..|].
  rewrite memcpy_eq, length_app, length_take, length_drop. lia.
Qed.

(** X8. When both calls to the provider succeed on a [Normal] block,
    [EncryptBlock] leaves the defined behaviour exactly when the
    ciphertext-and-tag is shorter than the 16 bytes of the tag or longer
    than the payload plus the tag (it would copy from before the string,
    or past the end of the block). *)
Theorem EncryptBlock_undefined_iff (b : oram_block_t) (r r1 : R)
    (bytes enc : list byte) :
  type (header b) = kNormal defs ->
  RandomBytes cryptor 12 r = ((kOK, bytes), r1) ->
  Encrypt cryptor (data b) (DEFAULT_ORAM_DATA_SIZE defs)
    (memcpy (iv (header b)) bytes 12) = (kOK, enc) ->
  EncryptBlock defs cryptor b r = Undefined
  <-> (length enc < 16 \/ DEFAULT_ORAM_DATA_SIZE defs + 16 < length enc)%nat.
Proof.
  intros Ht Hrand Henc.
  unfold EncryptBlock, bind, call, lift, ret, undefined, CheckStatus.
  rewrite bool_decide_eq_true_2 by done. simpl.
  rewrite Hrand. simpl. rewrite Henc. simpl.
  destruct (Nat.ltb_spec (length enc) 16); [split; [lia|done]|].
  destruct (Nat.ltb_spec (DEFAULT_ORAM_DATA_SIZE defs) (length enc - 16)).
  - split; [lia|done].
  - split; [done|lia].
Qed.

(** X9. Where the ciphertext goes.  When both calls succeed and the
    ciphertext-and-tag [enc] has between 16 and
    [DEFAULT_ORAM_DATA_SIZE + 16] bytes, [EncryptBlock] returns the block
    whose [mac_tag] is the last 16 bytes of [enc] and whose payload
    starts with the other bytes of [enc]; payload bytes beyond them stay
    as they were, in plaintext.  The random source is left as the call of
    [RandomBytes] left it. *)
Theorem EncryptBlock_places_ciphertext (b : oram_block_t) (r r1 : R)
    (bytes enc : list byte) :
  block_wf defs b ->
  type (header b) = kNormal defs ->
  RandomBytes cryptor 12 r = ((kOK, bytes), r1) ->
  Encrypt cryptor (data b) (DEFAULT_ORAM_DATA_SIZE defs)
    (memcpy (iv (header b)) bytes 12) = (kOK, enc) ->
  (16 <= length enc <= DEFAULT_ORAM_DATA_SIZE defs + 16)%nat ->
  exists b',
    EncryptBlock defs cryptor b r = Ret (b', r1)
    /\ iv (header b') = memcpy (iv (header b)) bytes 12
    /\ mac_tag (header b') = drop (length enc - 16) enc
    /\ data b' = take (length enc - 16) enc
                   ++ drop (length enc - 16) (data b)
    /\ take (length enc - 16) (data b') ++ mac_tag (header b') = enc.
Proof.
  intros [_ Hiv Hmac Hdata] Ht Hrand Henc Hlen.
  unfold EncryptBlock, bind, call, lift, ret, undefined, CheckStatus.
  rewrite bool_decide_eq_true_2 by done. simpl.
  rewrite Hrand. simpl. rewrite Henc. simpl.
  do 2 nat_ltb.
  eexists. split; [done|]. simpl.
  rewrite !memcpy_eq.
  rewrite (take_ge (drop _ enc)) by (rewrite length_drop; lia).
  rewrite (drop_ge (mac_tag (header b))) by lia.
  rewrite app_nil_r.
  repeat split.
  rewrite take_app_length' by (rewrite length_take; lia).
  apply take_drop.
Qed.

(** X10. What [DecryptBlock] does on a [Normal] block: it hands
    [Decrypt] the payload followed by [mac_tag], with the [iv] of the
    block; if [Decrypt] does not report [kOK] it aborts and no block is
    returned; otherwise the plaintext overwrites the front of the
    payload, unless it is longer than the payload, which is a copy past
    the end of the block. *)
Theorem DecryptBlock_outcome (b : oram_block_t) :
  block_wf defs b ->
  type (header b) = kNormal defs ->
  DecryptBlock defs cryptor b =
    let '(status, dec) :=
      Decrypt cryptor (data b ++ mac_tag (header b))
        (DEFAULT_ORAM_DATA_SIZE defs + 16) (iv (header b)) in
    if bool_decide (status = kOK)
    then if (length dec <=? DEFAULT_ORAM_DATA_SIZE defs)%nat
         then Ret (set_data b (dec ++ drop (length dec) (data b)))
         else Undefined
    else Abort "Failed to decrypt data!".
Proof.
  intros Hwf Ht. unfold DecryptBlock, CheckStatus.
  rewrite bool_decide_eq_true_2 by done. simpl.
  rewrite DecryptBlock_buffer by done.
  destruct (Decrypt cryptor _ _ _) as [st dec]. simpl.
  destruct (bool_decide (st = kOK)); simpl; [|done].
  destruct (Nat.ltb_spec (DEFAULT_ORAM_DATA_SIZE defs) (length dec)).
  - by replace (length dec <=? DEFAULT_ORAM_DATA_SIZE defs)%nat with false
      by (symmetry; apply Nat.leb_gt; lia).
  - replace (length dec <=? DEFAULT_ORAM_DATA_SIZE defs)%nat with true
      by (symmetry; apply Nat.leb_le; lia).
    by rewrite memcpy_eq, take_ge by lia.
Qed.

End Codec_more.

(** ** Stash padding, further *)

Section PadStash_more.
Context {R : Type}.
Variable defs : oram_defs.
Variable cryptor : Cryptor R.

(** X11. [PadStash] only ever appends: whenever it returns, the stash
    has [max (length stash) bucket_size] blocks and starts with the
    original blocks in their order; when the stash already has
    [bucket_size] blocks or more it is returned as it is and the random
    source is not used. *)
Theorem PadStash_length_prefix (uninit : oram_block_t)
    (stash stash' : p_oram_stash_t) (bucket_size : nat) (r r' : R) :
  PadStash defs cryptor uninit stash bucket_size r = Ret (stash', r') ->
  length stash' = (length stash `max` bucket_size)%nat
  /\ take (length stash) stash' = stash
  /\ ((bucket_size <= length stash)%nat -> stash' = stash /\ r' = r).
Proof.
  intros Hret.
  destruct (decide (length stash < bucket_size)%nat) as [Hlt|Hge].
  - destruct (PadStash_pads defs cryptor _ _ _ _ _ _ Hlt Hret)
      as (Hlen & app & -> & _).
    split; [lia|]. split; [by rewrite take_app_length|]. lia.
  - rewrite PadStash_unchanged in Hret by lia.
    injection Hret as <- <-.
    split; [lia|]. split; [by rewrite take_ge|done].
Qed.

(** X12. Padding is idempotent: after [PadStash] returned for the
    target [bucket_size], calling it again for that target or a smaller
    one changes neither the stash nor the random source. *)
Theorem PadStash_idempotent (uninit : oram_block_t)
    (stash stash' : p_oram_stash_t) (bucket_size m : nat) (r r' : R) :
  PadStash defs cryptor uninit stash bucket_size r = Ret (stash', r') ->
  (m <= bucket_size)%nat ->
  PadStash defs cryptor uninit stash' m r' = Ret (stash', r').
Proof.
  intros Hret Hm. apply PadStash_unchanged.
  destruct (decide (length stash < bucket_size)%nat) as [Hlt|Hge].
  - destruct (PadStash_pads defs cryptor _ _ _ _ _ _ Hlt Hret) as [Hlen _].
    lia.
  - rewrite PadStash_unchanged in Hret by lia.
    injection Hret as <- <-. lia.
Qed.

(** X13. When padding is needed and the first call of [RandomBytes]
    does not report [kOK], [PadStash] aborts after logging
    ["Failed to generate random bytes"]. *)
Theorem PadStash_aborts_on_random_failure (uninit : oram_block_t)
    (stash : p_oram_stash_t) (bucket_size : nat) (r : R) :
  (length stash < bucket_size)%nat ->
  fst (fst (RandomBytes cryptor (ORAM_BLOCK_SIZE defs) r)) <> kOK ->
  PadStash defs cryptor uninit stash bucket_size r
    = Abort "Failed to generate random bytes".
Proof.
  intros Hlt Hfail. unfold PadStash. nat_ltb.
  destruct (bucket_size - length stash)%nat as [|k] eqn:Hk; [lia|].
  simpl. unfold bind at 1. unfold PadStash_body, bind, call, abort, ret.
  destruct (RandomBytes cryptor (ORAM_BLOCK_SIZE defs) r) as [[st bytes] r1].
  simpl in *. by rewrite bool_decide_eq_false_2.
Qed.

(** X14. The padding blocks are valid blocks, and each serializes to
    exactly the [ORAM_BLOCK_SIZE] bytes that one call of [RandomBytes]
    gave: nothing of the uninitialised local [dummy] is left in them. *)
Theorem PadStash_padding_is_random (uninit : oram_block_t)
    (stash stash' : p_oram_stash_t) (bucket_size : nat) (r r' : R) :
  RandomBytes_fills cryptor ->
  PadStash defs cryptor uninit stash bucket_size r = Ret (stash', r') ->
  Forall (fun b =>
            block_wf defs b
            /\ drawn_from_random_source cryptor (ORAM_BLOCK_SIZE defs)
                 (ConvertToString defs b []))
         (drop (length stash) stash').
Proof.
  intros Hfill Hret.
  destruct (decide (length stash < bucket_size)%nat) as [Hlt|Hge].
  - destruct (PadStash_pads defs cryptor _ _ _ _ _ _ Hlt Hret)
      as (_ & app & -> & Hpad).
    rewrite drop_app_length.
    eapply Forall_impl; [exact Hpad|].
    intros b (bytes & Hdrawn & ->).
    assert (Hlen : length bytes = ORAM_BLOCK_SIZE defs).
    { destruct Hdrawn as (q0 & q1 & Hcall). by eapply Hfill. }
    rewrite memcpy_eq, take_ge by lia.
    rewrite block_of_bytes_app by lia.
    split; [apply block_of_bytes_wf; lia|].
    rewrite ConvertToString_eq by (apply block_of_bytes_wf; lia).
    by rewrite block_bytes_block_of_bytes.
  - rewrite PadStash_unchanged in Hret by lia.
    injection Hret as <- <-. by rewrite drop_ge.
Qed.

End PadStash_more.

(** ** Bucket sampling, further *)

Section SampleRandomBucket_more.
Context {R : Type}.
Variable defs : oram_defs.
Variable cryptor : Cryptor R.

Lemma SampleRandomBucket_ret_loop (uninit : oram_block_t)
    (size tree_size initial_offset : N) (bucket' : p_oram_bucket_t)
    (r r' : R) :
  SampleRandomBucket defs cryptor uninit size tree_size initial_offset r
    = Ret (bucket', r') ->
  exists bucket r1,
    for_loop (N.to_nat tree_size) 0
      (SampleRandomBucket_body defs cryptor uninit (N.shiftr size 1)
         initial_offset) [] r = Ret (bucket, r1)
    /\ RandomShuffle cryptor bucket r1 = ((kOK, bucket'), r').
Proof.
  unfold SampleRandomBucket. unfold bind at 1.
  destruct (for_loop _ _ _ _ r) as [[bucket r1]| |] eqn:Hloop; simpl; try done.
  unfold bind, call, lift, PANIC_IF. simpl.
  destruct (RandomShuffle cryptor bucket r1) as [[st bk] r2] eqn:Hsh. simpl.
  destruct (decide (st = kOK)) as [->|Hst].
  - simpl. intros [= <- <-]. by exists bucket, r1.
  - by rewrite bool_decide_eq_false_2.
Qed.

(** Before the shuffle the [Dummy] blocks are the blocks after the first
    [size]. *)
Lemma sampled_count_dummy (uninit : oram_block_t) (size initial_offset : N)
    (a n : nat) (bucket : p_oram_bucket_t) :
  kNormal defs <> kDummy defs ->
  Forall2 (sampled defs cryptor uninit size initial_offset) (seq a n) bucket ->
  count_type (kDummy defs) bucket = (n - (N.to_nat size - a))%nat.
Proof.
  intros Hneq. unfold count_type. revert a bucket.
  induction n as [|n IH]; intros a bucket Hall; simpl in Hall.
  - by apply Forall2_nil_inv_l in Hall as ->.
  - apply Forall2_cons_inv_l in Hall as (b & rest & Hb & Hall & ->).
    specialize (IH _ _ Hall).
    destruct Hb as (_ & Ht & _).
    destruct (N.ltb_spec (N.of_nat a) size) as [Hlt|Hge].
    + rewrite filter_cons_False by (rewrite Ht; congruence).
      rewrite IH. lia.
    + rewrite filter_cons_True by done. simpl. rewrite IH. lia.
Qed.

(** X15. A sampled bucket holds [Normal] and [Dummy] blocks only, and
    the [Dummy] blocks are the [tree_size - min (size / 2) tree_size]
    blocks that are not [Normal]. *)
Theorem SampleRandomBucket_dummy_count (uninit : oram_block_t)
    (size tree_size initial_offset : N) (r r' : R)
    (bucket : p_oram_bucket_t) :
  kNormal defs <> kDummy defs ->
  RandomShuffle_permutes cryptor ->
  SampleRandomBucket defs cryptor uninit size tree_size initial_offset r
    = Ret (bucket, r') ->
  Forall (fun b => type (header b) = kNormal defs
                   \/ type (header b) = kDummy defs) bucket
  /\ count_type (kDummy defs) bucket
     = N.to_nat (tree_size - N.min (size / 2) tree_size).
Proof.
  intros Hneq Hperm Hret.
  apply SampleRandomBucket_ret in Hret as (bucket0 & r1 & Hall & Hsh).
  specialize (Hperm _ _ _ _ _ Hsh eq_refl).
  split.
  - rewrite Hperm. apply Forall_forall. intros b Hin.
    apply list_elem_of_lookup in Hin as (i & Hi).
    destruct (Forall2_lookup_r _ _ _ _ _ Hall Hi) as (k & _ & _ & Ht & _).
    rewrite Ht. destruct (N.of_nat k <? size / 2); auto.
  - unfold count_type. rewrite Hperm.
    pose proof (sampled_count_dummy _ _ _ _ _ _ Hneq Hall) as Hc.
    unfold count_type in Hc. rewrite Hc.
    generalize (size / 2). intros half. lia.
Qed.

(** X16. Without wrap-around ([initial_offset + tree_size <= 2^32]) the
    identifiers of all the blocks of a sampled bucket, [Dummy] ones
    included, are [initial_offset], ..., [initial_offset + tree_size - 1]
    in some order, each exactly once. *)
Theorem SampleRandomBucket_all_ids (uninit : oram_block_t)
    (size tree_size initial_offset : N) (r r' : R)
    (bucket : p_oram_bucket_t) :
  RandomShuffle_permutes cryptor ->
  initial_offset + tree_size <= 2 ^ 32 ->
  SampleRandomBucket defs cryptor uninit size tree_size initial_offset r
    = Ret (bucket, r') ->
  (fun b => block_id (header b)) <$> bucket
    ≡ₚ (fun k => N.of_nat k + initial_offset) <$> seq 0 (N.to_nat tree_size)
  /\ NoDup ((fun b => block_id (header b)) <$> bucket).
Proof.
  intros Hperm Hwrap Hret.
  apply SampleRandomBucket_ret in Hret as (bucket0 & r1 & Hall & Hsh).
  specialize (Hperm _ _ _ _ _ Hsh eq_refl).
  assert (Hids : (fun b => block_id (header b)) <$> bucket
            ≡ₚ (fun k => N.of_nat k + initial_offset)
                 <$> seq 0 (N.to_nat tree_size)).
  { rewrite Hperm. erewrite sampled_block_ids; [done| |exact Hall]. lia. }
  split; [exact Hids|].
  rewrite Hids. apply NoDup_fmap_2; [|apply NoDup_seq].
  intros x y Hxy. lia.
Qed.

(** X17. [SampleRandomBucket] never writes [iv] and [mac_tag]: in every
    block of the bucket they are what the uninitialised local [block]
    held.  With a valid [uninit] and a random source that fills its
    buffers, every block of the bucket is a valid block. *)
Theorem SampleRandomBucket_header_untouched (uninit : oram_block_t)
    (size tree_size initial_offset : N) (r r' : R)
    (bucket : p_oram_bucket_t) :
  RandomBytes_fills cryptor ->
  RandomShuffle_permutes cryptor ->
  block_wf defs uninit ->
  SampleRandomBucket defs cryptor uninit size tree_size initial_offset r
    = Ret (bucket, r') ->
  Forall (fun b =>
            iv (header b) = iv (header uninit)
            /\ mac_tag (header b) = mac_tag (header uninit)
            /\ block_wf defs b) bucket.
Proof.
  intros Hfill Hperm Hwf Hret.
  apply SampleRandomBucket_ret_loop in Hret as (bucket0 & r1 & Hloop & Hsh).
  specialize (Hperm _ _ _ _ _ Hsh eq_refl). rewrite Hperm.
  apply (for_loop_inv
           (fun _ bk => Forall (fun b =>
              iv (header b) = iv (header uninit)
              /\ mac_tag (header b) = mac_tag (header uninit)
              /\ block_wf defs b) bk)) in Hloop; [done| |constructor].
  intros j t t' q q' Hall.
  unfold SampleRandomBucket_body, bind, call, abort, ret.
  destruct (RandomBytes cryptor (DEFAULT_ORAM_DATA_SIZE defs - 1) q)
    as [[st bytes] q1] eqn:Hrand. simpl.
  destruct (decide (st = kOK)) as [->|Hst];
    [|by rewrite bool_decide_eq_false_2].
  simpl. intros [= <- <-].
  apply Forall_app. split; [done|]. apply Forall_singleton.
  split; [done|]. split; [done|].
  pose proof (Hfill _ _ _ _ _ Hrand eq_refl) as Hlen.
  destruct Hwf as [Hid Hiv Hmac Hdata].
  constructor; simpl; [|done|done|].
  - unfold to_uint32. apply N.mod_upper_bound. done.
  - unfold memcpy_at.
    rewrite !length_app, !length_take, length_drop, !length_insert. lia.
Qed.

(** X18. The fatal ends of [SampleRandomBucket]: with a non-empty tree,
    a failure of the first call of [RandomBytes] aborts with
    ["Failed to generate random bytes"]; with [tree_size = 0] no bytes
    are drawn, the empty bucket is still shuffled, and a failure of
    [RandomShuffle] aborts with the message of the shuffle. *)
Theorem SampleRandomBucket_aborts (uninit : oram_block_t)
    (size tree_size initial_offset : N) (r : R) :
  (0 < tree_size ->
   fst (fst (RandomBytes cryptor (DEFAULT_ORAM_DATA_SIZE defs - 1) r)) <> kOK ->
   SampleRandomBucket defs cryptor uninit size tree_size initial_offset r
     = Abort "Failed to generate random bytes")
  /\ (tree_size = 0 ->
      fst (fst (RandomShuffle cryptor [] r)) <> kOK ->
      SampleRandomBucket defs cryptor uninit size tree_size initial_offset r
        = Abort "Random shuffle failed due to internal error.").
Proof.
  split.
  - intros Hpos Hfail. unfold SampleRandomBucket. unfold bind at 1.
    destruct (N.to_nat tree_size) as [|k] eqn:Hk; [lia|].
    simpl. unfold bind at 1.
    unfold SampleRandomBucket_body, bind, call, abort, ret.
    destruct (RandomBytes cryptor (DEFAULT_ORAM_DATA_SIZE defs - 1) r)
      as [[st bytes] r1].
    simpl in *. by rewrite bool_decide_eq_false_2.
  - intros -> Hfail. unfold SampleRandomBucket. simpl.
    unfold bind, call, lift, ret, PANIC_IF. simpl.
    destruct (RandomShuffle cryptor [] r) as [[st bk] r1].
    simpl in *. by rewrite bool_decide_eq_false_2.
Qed.

(** X19. The first payload byte of a [Normal] block of a sampled bucket
    is the low byte of its [block_id]; the other bytes come from the
    random source. *)
Theorem SampleRandomBucket_normal_payload (uninit : oram_block_t)
    (size tree_size initial_offset : N) (r r' : R)
    (bucket : p_oram_bucket_t) :
  RandomBytes_fills cryptor ->
  RandomShuffle_permutes cryptor ->
  block_wf defs uninit ->
  (0 < DEFAULT_ORAM_DATA_SIZE defs)%nat ->
  SampleRandomBucket defs cryptor uninit size tree_size initial_offset r
    = Ret (bucket, r') ->
  forall b, b ∈ bucket -> type (header b) = kNormal defs ->
    data b !! 0%nat = Some (byte_of_N (block_id (header b)))
    /\ drawn_from_random_source cryptor (DEFAULT_ORAM_DATA_SIZE defs - 1)
         (drop 1 (data b)).
Proof.
  intros Hfill Hperm Hwf Hpos Hret b Hin _.
  apply SampleRandomBucket_ret in Hret as (bucket0 & r1 & Hall & Hsh).
  specialize (Hperm _ _ _ _ _ Hsh eq_refl).
  rewrite Hperm in Hin.
  apply list_elem_of_lookup in Hin as (i & Hi).
  destruct (Forall2_lookup_r _ _ _ _ _ Hall Hi) as (k & _ & Hk).
  destruct Hk as (Hid & _ & bytes & Hdrawn & Hdata).
  rewrite Hdata, Hid, byte_of_N_to_uint32.
  pose proof Hdrawn as (q0 & q1 & Hrand).
  pose proof (Hfill _ _ _ _ _ Hrand eq_refl) as Hlen.
  pose proof (wf_data _ _ Hwf) as Hd.
  destruct (data uninit) as [|d0 d] eqn:Hdu; simpl in Hd; [lia|].
  unfold memcpy_at. simpl.
  rewrite take_ge by lia.
  rewrite (drop_ge d) by lia. rewrite app_nil_r, drop_0. done.
Qed.

End SampleRandomBucket_more.

(** ** The compression adapter, further *)

Section Compression_more.
Variable lz4 : LZ4.

(** What [DataCompress] returns, when it returns. *)
Lemma DataCompress_ret_inv (p z : list byte) (c : N) :
  LZ4_contract lz4 ->
  (Z.of_nat (length p) <= LZ4_MAX_INPUT_SIZE)%Z ->
  DataCompress lz4 p (N.of_nat (length p)) = Ret (c, z) ->
  c = N.of_nat (length z)
  /\ (1 <= Z.of_nat (length z) <= LZ4_compressBound (Z.of_nat (length p)))%Z
  /\ forall cap' : Z,
       (Z.of_nat (length p) <= cap')%Z ->
       LZ4_decompress_safe lz4 z (Z.of_nat (length z)) cap'
         = (Z.of_nat (length p), p).
Proof.
  intros Hok Hmax Hc.
  destruct (LZ4_compressBound_in_range (Z.of_nat (length p))) as [Hb Hbr];
    [lia|].
  destruct (Hok p (LZ4_compressBound (Z.of_nat (length p))))
    as (z' & Hc' & Hpos & Hle & Hdec); [done|lia|].
  unfold DataCompress in Hc.
  unfold LZ4_MAX_INPUT_SIZE in Hmax.
  rewrite to_int_small in Hc by lia.
  rewrite nat_N_Z in Hc.
  rewrite size_t_of_int_nonneg in Hc by lia.
  rewrite to_int_small in Hc by lia.
  rewrite Z2N.id in Hc by lia.
  rewrite Hc' in Hc.
  rewrite size_t_of_int_nonneg in Hc by lia.
  destruct (Z.to_N (Z.of_nat (length z')) =? 0); [done|].
  injection Hc as <- <-.
  split; [lia|]. split; [lia|].
  intros cap' Hcap. specialize (Hdec cap').
  by replace (Z.of_nat (length p) <=? cap')%Z with true in Hdec
    by (symmetry; apply Z.leb_le; lia).
Qed.

(** X20. On any payload that LZ4 accepts (at most [LZ4_MAX_INPUT_SIZE]
    bytes) [DataCompress] does not abort: it returns the compressed
    bytes and their number, which is at least 1 and at most
    [LZ4_compressBound] of the payload size. *)
Theorem DataCompress_returns (p : list byte) :
  LZ4_contract lz4 ->
  (Z.of_nat (length p) <= LZ4_MAX_INPUT_SIZE)%Z ->
  exists z,
    DataCompress lz4 p (N.of_nat (length p)) = Ret (N.of_nat (length z), z)
    /\ (1 <= Z.of_nat (length z) <= LZ4_compressBound (Z.of_nat (length p)))%Z.
Proof.
  intros Hok Hmax.
  destruct (DataCompress_ok lz4 Hok p Hmax) as (z & Hc & _).
  exists z. split; [done|].
  by destruct (DataCompress_ret_inv _ _ _ Hok Hmax Hc) as (_ & Hb & _).
Qed.

(** X21. Round trip of the adapter where it holds: when twice the
    compressed size is at least the size of a non-empty payload (and fits
    an [int]), [DataDecompress] of what [DataCompress] returned gives the
    size of the payload and the payload. *)
Theorem DataDecompress_DataCompress_when_capacity_suffices
    (p z : list byte) (c : N) :
  LZ4_contract lz4 ->
  (0 < length p)%nat ->
  (Z.of_nat (length p) <= LZ4_MAX_INPUT_SIZE)%Z ->
  DataCompress lz4 p (N.of_nat (length p)) = Ret (c, z) ->
  N.of_nat (length p) <= 2 * c ->
  2 * c < 2 ^ 31 ->
  DataDecompress lz4 z c = Ret (N.of_nat (length p), p).
Proof.
  intros Hok. by apply DataCompress_DataDecompress_roundtrip.
Qed.

(** X22. The fatal branch of [DataDecompress] is taken exactly when
    [LZ4_decompress_safe] returns 0.  A negative error code [e] is not
    caught: it comes back as the size [2^64 + e]. *)
Theorem DataDecompress_fatal_iff_zero (z out : list byte) (c : N) (e : Z) :
  LZ4_decompress_safe lz4 z (to_int c) (to_int (to_size_t (c * 2))) = (e, out) ->
  (- 2 ^ 31 <= e < 2 ^ 31)%Z ->
  (DataDecompress lz4 z c = Abort "Failed to decompress data!" <-> e = 0%Z)
  /\ (0 < e -> DataDecompress lz4 z c = Ret (Z.to_N e, out))%Z
  /\ (e < 0 -> DataDecompress lz4 z c = Ret (Z.to_N (2 ^ 64 + e), out))%Z.
Proof.
  intros Hcall He. unfold DataDecompress. rewrite Hcall.
  destruct (Z.lt_trichotomy e 0) as [Hneg|[->|Hpos]].
  - rewrite size_t_of_int_negative by lia.
    replace (Z.to_N (2 ^ 64 + e) =? 0) with false
      by (symmetry; apply N.eqb_neq; lia).
    repeat split; try done; lia.
  - repeat split; try done; lia.
  - rewrite size_t_of_int_nonneg by lia.
    replace (Z.to_N e =? 0) with false by (symmetry; apply N.eqb_neq; lia).
    repeat split; try done; lia.
Qed.

(** X23. The empty payload does not survive the round trip:
    [DataCompress] returns a block for it, and [DataDecompress] of that
    block aborts, since decompressing to zero bytes is taken for a
    failure. *)
Theorem DataDecompress_aborts_on_empty_payload (z : list byte) (c : N) :
  LZ4_contract lz4 ->
  DataCompress lz4 [] 0 = Ret (c, z) ->
  DataDecompress lz4 z c = Abort "Failed to decompress data!".
Proof.
  intros Hok Hcomp.
  destruct (DataCompress_ret_inv [] z c Hok ltac:(done) Hcomp)
    as (-> & Hb & Hdec).
  change (LZ4_compressBound (Z.of_nat (length []))) with 16%Z in Hb.
  unfold DataDecompress, to_size_t.
  rewrite (N.mod_small _ (2 ^ 64)) by lia.
  rewrite !to_int_small by lia.
  rewrite nat_N_Z.
  rewrite Hdec by (simpl; lia).
  done.
Qed.

End Compression_more.

(** ** Reading files *)

Lemma getline_split_spec (file : list byte) :
  (Byte.x0a ∉ fst (getline_split file))
  /\ (((Byte.x0a ∉ file) /\ file = fst (getline_split file)
       /\ snd (getline_split file) = [])
      \/ file = fst (getline_split file)
                  ++ Byte.x0a :: snd (getline_split file)).
Proof.
  induction file as [|c file IH]; simpl.
  - split; [apply not_elem_of_nil|]. left. split; [apply not_elem_of_nil|done].
  - destruct (decide (c = Byte.x0a)) as [->|Hc].
    + rewrite bool_decide_eq_true_2 by done. simpl.
      split; [apply not_elem_of_nil|]. by right.
    + rewrite bool_decide_eq_false_2 by done.
      destruct (getline_split file) as [line rest]. simpl in *.
      destruct IH as [Hline Hcases].
      split; [rewrite not_elem_of_cons; split; [congruence|done]|].
      destruct Hcases as [(Hno & -> & ->)|Hfile].
      * left. split; [|done]. rewrite not_elem_of_cons. split; [congruence|done].
      * right. by rewrite Hfile at 1.
Qed.

Lemma getline_split_shorter (c : byte) (file : list byte) :
  (length (snd (getline_split (c :: file))) <= length file)%nat.
Proof.
  destruct (getline_split_spec (c :: file)) as [_ [(_ & _ & ->)|Hfile]].
  - simpl. lia.
  - apply (f_equal length) in Hfile.
    rewrite length_app, !length_cons in Hfile. lia.
Qed.

(** The length of the file is fuel enough for the loop. *)
Lemma ReadDataFromFile_loop_fuel (f1 f2 : nat) (file : list byte)
    (data : list (list byte)) :
  (length file <= f1)%nat -> (length file <= f2)%nat ->
  ReadDataFromFile_loop f1 file data = ReadDataFromFile_loop f2 file data.
Proof.
  revert f2 file data.
  induction f1 as [|f1 IH]; intros f2 file data H1 H2.
  - destruct file; [|simpl in H1; lia]. by destruct f2.
  - destruct file as [|c file]; [by destruct f2|].
    destruct f2 as [|f2]; [simpl in H2; lia|].
    cbn [ReadDataFromFile_loop getline].
    pose proof (getline_split_shorter c file) as Hshort.
    destruct (getline_split (c :: file)) as [line rest]. simpl in *.
    apply IH; lia.
Qed.

Lemma ReadDataFromFile_loop_Forall (P : list byte -> Prop) (fuel : nat)
    (file : list byte) (data : list (list byte)) :
  (forall f, P (fst (getline_split f))) ->
  Forall P data ->
  Forall P (ReadDataFromFile_loop fuel file data).
Proof.
  intros Hline. revert file data.
  induction fuel as [|fuel IH]; intros file data Hdata; [done|].
  destruct file as [|c file]; [done|].
  cbn [ReadDataFromFile_loop getline].
  specialize (Hline (c :: file)).
  destruct (getline_split (c :: file)) as [line rest].
  apply IH. apply Forall_app. split; [done|]. by apply Forall_singleton.
Qed.

Lemma newline_terminated_getline (c : byte) (file : list byte) :
  newline_terminated (c :: file)
    = fst (getline_split (c :: file)) ++ [Byte.x0a]
        ++ newline_terminated (snd (getline_split (c :: file))).
Proof.
  destruct (getline_split_spec (c :: file)) as [_ [(Hno & Hline & Hrest)|Hfile]].
  - rewrite Hrest, <- Hline. unfold newline_terminated.
    rewrite (bool_decide_eq_true_2 ([] = [] \/ _)) by (by left).
    rewrite bool_decide_eq_false_2; [by rewrite app_nil_r|].
    intros [?|Hlast]; [done|].
    by apply last_Some_elem_of in Hlast.
  - destruct (getline_split (c :: file)) as [line rest]. simpl in *.
    rewrite Hfile at 1. unfold newline_terminated.
    destruct rest as [|c' rest].
    + rewrite (bool_decide_eq_true_2 ([] = [] \/ _)) by (by left).
      rewrite bool_decide_eq_true_2; [done|].
      right. by rewrite last_snoc.
    + rewrite (last_app_cons line (c' :: rest) Byte.x0a).
      rewrite last_cons_cons.
      destruct (decide (last (c' :: rest) = Some Byte.x0a)) as [Hl|Hl].
      * rewrite (bool_decide_eq_true_2 (c' :: rest = [] \/ _)) by (by right).
        by rewrite bool_decide_eq_true_2 by (by right).
      * rewrite (bool_decide_eq_false_2 (c' :: rest = [] \/ _))
          by (intros [?|?]; done).
        rewrite bool_decide_eq_false_2.
        -- by rewrite <- !app_assoc.
        -- intros [Hnil|Hlast]; [by destruct line|done].
Qed.

Lemma ReadDataFromFile_loop_concat (fuel : nat) (file : list byte)
    (data : list (list byte)) :
  (length file <= fuel)%nat ->
  concat (map (fun line => line ++ [Byte.x0a])
              (ReadDataFromFile_loop fuel file data))
    = concat (map (fun line => line ++ [Byte.x0a]) data)
        ++ newline_terminated file.
Proof.
  revert file data.
  induction fuel as [|fuel IH]; intros file data Hfuel.
  - destruct file; [|simpl in Hfuel; lia]. simpl. by rewrite app_nil_r.
  - destruct file as [|c file]; [simpl; by rewrite app_nil_r|].
    cbn [ReadDataFromFile_loop getline].
    rewrite newline_terminated_getline.
    pose proof (getline_split_shorter c file) as Hshort.
    destruct (getline_split (c :: file)) as [line rest]. simpl in *.
    rewrite IH by lia.
    rewrite map_app, concat_app. simpl.
    by rewrite app_nil_r, <- !app_assoc.
Qed.

(** X24. No line that [ReadDataFromFile] returns holds a newline. *)
Theorem ReadDataFromFile_lines_without_newline (fs : file_system)
    (path : string) :
  Forall (fun line => Byte.x0a ∉ line) (fst (ReadDataFromFile fs path)).
Proof.
  unfold ReadDataFromFile. destruct (fs path) as [content|]; simpl; [|done].
  apply ReadDataFromFile_loop_Forall; [|done].
  intros f. apply getline_split_spec.
Qed.

(** X25. The two readers agree: the lines that [ReadDataFromFile]
    returns, each closed by a newline, make up the text that
    [ReadKeyCrtFile] returns for the same path, with its last line closed
    by a newline if it was not.  A final newline in the file therefore
    makes no difference to the lines, and a missing file reads as an
    empty one. *)
Theorem ReadDataFromFile_lines_make_up_the_file (fs : file_system)
    (path : string) :
  concat (map (fun line => line ++ [Byte.x0a])
              (fst (ReadDataFromFile fs path)))
    = newline_terminated (fst (ReadKeyCrtFile fs path)).
Proof.
  unfold ReadDataFromFile, ReadKeyCrtFile.
  destruct (fs path) as [content|]; simpl; [|done].
  by rewrite ReadDataFromFile_loop_concat.
Qed.

(** X26. [ReadDataFromFile] returns no line exactly when the file
    cannot be read or is empty, and it logs an error exactly when the
    file cannot be read: by the returned lines alone the two cases cannot
    be told apart. *)
Theorem ReadDataFromFile_no_lines_iff (fs : file_system) (path : string) :
  (fst (ReadDataFromFile fs path) = []
   <-> fs path = None \/ fs path = Some [])
  /\ (snd (ReadDataFromFile fs path) = [] <-> fs path <> None).
Proof.
  unfold ReadDataFromFile.
  destruct (fs path) as [content|]; simpl.
  - split; [|done]. split.
    + intros Hnil. right. f_equal.
      destruct content as [|c content]; [done|].
      exfalso. revert Hnil. cbn [length ReadDataFromFile_loop getline].
      destruct (getline_split (c :: content)) as [line rest].
      assert (Hne : forall fuel file (data : list (list byte)),
                data <> [] -> ReadDataFromFile_loop fuel file data <> []).
      { induction fuel as [|fuel IH]; intros file data Hd; [done|].
        simpl. destruct (getline file) as [[l' r']|]; [|done].
        apply IH. by destruct data. }
      by apply Hne.
    + intros [?|[= ->]]; done.
  - split; [split; [by left|done]|]. split; [done|]. intros Hnone. by destruct Hnone.
Qed.

(** ** Releasing memory *)

Local Set Warnings "-clear-no-such-hyp".

Lemma SafeFreeAll_loop_wild (n i : nat) (args : list N) (p : N)
    (heap : gset N) (log : list string) :
  p <> nullptr ->
  p ∈ take n (drop i args) ->
  p ∉ heap ->
  SafeFreeAll_loop n i args (heap, log) = Undefined.
Proof.
  intros Hp. revert i heap log.
  induction n as [|n IH]; intros i heap log Hin Hnot.
  - rewrite take_0 in Hin. by apply elem_of_nil in Hin.
  - simpl. destruct (args !! i) as [q|] eqn:Hq; [|done].
    rewrite (drop_S _ _ _ Hq) in Hin. simpl in Hin.
    unfold SafeFree, free. simpl.
    destruct (N.eqb_spec q nullptr) as [->|Hq0]; simpl.
    + apply IH; [|done].
      apply elem_of_cons in Hin as [Heq|Hin]; [done|exact Hin].
    + destruct (decide (q ∈ heap)) as [Hqh|Hqh].
      * rewrite bool_decide_eq_true_2 by done. simpl.
        apply IH; [|set_solver].
        apply elem_of_cons in Hin as [->|Hin]; [done|exact Hin].
      * by rewrite bool_decide_eq_false_2.
Qed.

Lemma SafeFreeAll_loop_spec (n i : nat) (args : list N)
    (heap : gset N) (log : list string) :
  (i + n <= length args)%nat ->
  NoDup (filter (fun p => p <> nullptr) (take n (drop i args))) ->
  (forall p, p ∈ take n (drop i args) -> p <> nullptr -> p ∈ heap) ->
  SafeFreeAll_loop n i args (heap, log)
    = Ret (heap ∖ list_to_set
                    (filter (fun p => p <> nullptr) (take n (drop i args))),
           log ++ replicate
                    (length (filter (fun p => p = nullptr)
                               (take n (drop i args))))
                    "Failed to free nullptr").
Proof.
  revert i heap log.
  induction n as [|n IH]; intros i heap log Hlen Hnodup Hlive.
  - rewrite take_0. simpl. rewrite app_nil_r. f_equal. f_equal. set_solver.
  - cbn [SafeFreeAll_loop].
    destruct (lookup_lt_is_Some_2 args i ltac:(lia)) as [q Hq].
    rewrite Hq. rewrite (drop_S _ _ _ Hq) in *. cbn [take] in *.
    unfold SafeFree, free. cbn [fst snd].
    destruct (decide (q = nullptr)) as [->|Hq0].
    + rewrite (filter_cons_False (fun p => p <> nullptr)) in Hnodup
        by (intros Hn; by apply Hn).
      rewrite (filter_cons_False (fun p => p <> nullptr))
        by (intros Hn; by apply Hn).
      rewrite (filter_cons_True (fun p => p = nullptr)) by done.
      change (nullptr =? nullptr) with true. cbn [negb obind].
      rewrite IH; [| lia | done |].
      * cbn [length replicate]. f_equal. f_equal.
        by rewrite <- app_assoc.
      * intros p Hin. apply Hlive. apply elem_of_cons. by right.
    + rewrite (filter_cons_True (fun p => p <> nullptr)) in Hnodup by done.
      rewrite (filter_cons_True (fun p => p <> nullptr)) by done.
      rewrite (filter_cons_False (fun p => p = nullptr)) by done.
      apply NoDup_cons in Hnodup as [Hfresh Hnodup].
      replace (q =? nullptr) with false by (symmetry; by apply N.eqb_neq).
      cbn [negb].
      rewrite bool_decide_eq_true_2
        by (apply Hlive; [apply list_elem_of_here|done]).
      cbn [obind].
      rewrite IH; [| lia | done |].
      * f_equal. f_equal. cbn [list_to_set foldr]. set_solver.
      * intros p Hin Hp.
        assert (p <> q).
        { intros ->. apply Hfresh. by apply list_elem_of_filter. }
        assert (p ∈ heap).
        { apply Hlive; [|done]. apply elem_of_cons. by right. }
        set_solver.
Qed.

(** X27. [SafeFreeAll] on [ptr_num] arguments that were passed, whose
    non-null pointers are live allocations, each passed once: it
    returns, every one of those allocations is released and nothing else
    is, and ["Failed to free nullptr"] is logged once for each null
    pointer. *)
Theorem SafeFreeAll_releases (ptr_num : nat) (args : list N)
    (heap : gset N) (log : list string) :
  (ptr_num <= length args)%nat ->
  NoDup (filter (fun p => p <> nullptr) (take ptr_num args)) ->
  (forall p, p ∈ take ptr_num args -> p <> nullptr -> p ∈ heap) ->
  SafeFreeAll ptr_num args (heap, log)
    = Ret (heap ∖ list_to_set
                    (filter (fun p => p <> nullptr) (take ptr_num args)),
           log ++ replicate
                    (length (filter (fun p => p = nullptr)
                               (take ptr_num args)))
                    "Failed to free nullptr").
Proof.
  intros Hlen Hnodup Hlive. unfold SafeFreeAll.
  rewrite SafeFreeAll_loop_spec; rewrite ?drop_0; done.
Qed.

(** X28. [SafeFreeAll] guards against null pointers only: if one of
    the pointers it is to release is not null and not a live allocation
    (never allocated, or released before), the call is undefined. *)
Theorem SafeFreeAll_wild_pointer (ptr_num : nat) (args : list N) (p : N)
    (heap : gset N) (log : list string) :
  p <> nullptr ->
  p ∈ take ptr_num args ->
  p ∉ heap ->
  SafeFreeAll ptr_num args (heap, log) = Undefined.
Proof.
  intros Hp Hin Hnot. unfold SafeFreeAll.
  apply (SafeFreeAll_loop_wild _ _ _ p); rewrite ?drop_0; done.
Qed.

(** X29. A pointer that is not null and is passed twice to one call of
    [SafeFreeAll] is a double free: the call is undefined, whatever the
    heap. *)
Theorem SafeFreeAll_double_free (ptr_num : nat) (args : list N) (p : N)
    (i j : nat) (heap : gset N) (log : list string) :
  p <> nullptr ->
  (i < j < ptr_num)%nat ->
  args !! i = Some p ->
  args !! j = Some p ->
  SafeFreeAll ptr_num args (heap, log) = Undefined.
Proof.
  intros Hp Hij Hi Hj. unfold SafeFreeAll.
  assert (Hgen : forall n k st,
    (k <= i)%nat -> (j < k + n)%nat ->
    SafeFreeAll_loop n k args st = Undefined).
  { induction n as [|n IH]; intros k [h l] Hk Hn; [lia|].
    simpl. destruct (args !! k) as [q|] eqn:Hq; [|done].
    destruct (decide (k = i)) as [->|Hne].
    - rewrite Hi in Hq. injection Hq as <-.
      unfold SafeFree, free. simpl.
      destruct (N.eqb_spec p nullptr) as [?|_]; [done|]. simpl.
      destruct (bool_decide (p ∈ h)); [|done]. simpl.
      apply (SafeFreeAll_loop_wild _ _ _ p); [done| |set_solver].
      apply list_elem_of_lookup. exists (j - S i)%nat.
      rewrite lookup_take_lt by lia. rewrite lookup_drop.
      by replace (S i + (j - S i))%nat with j by lia.
    - unfold SafeFree, free.
      destruct (negb (q =? nullptr)); simpl.
      + destruct (bool_decide (q ∈ h)); simpl; [|done]. apply IH; lia.
      + apply IH; lia. }
  apply Hgen; lia.
Qed.

(** X30. Reading more variable arguments than were passed: with
    [ptr_num] above the number of arguments [SafeFreeAll] never returns
    normally, it is undefined. *)
Theorem SafeFreeAll_too_few_arguments (ptr_num : nat) (args : list N)
    (st : gset N * list string) :
  (length args < ptr_num)%nat ->
  SafeFreeAll ptr_num args st = Undefined.
Proof.
  intros Hlen. unfold SafeFreeAll.
  assert (Hgen : forall n k st',
    (k <= length args)%nat -> (length args < k + n)%nat ->
    SafeFreeAll_loop n k args st' = Undefined).
  { induction n as [|n IH]; intros k st' Hk Hn; [lia|].
    simpl. destruct (args !! k) as [q|] eqn:Hq; [|done].
    apply lookup_lt_Some in Hq.
    unfold SafeFree, free.
    destruct (negb (q =? nullptr)); simpl.
    - destruct (bool_decide (q ∈ fst st')); simpl; [|done]. apply IH; lia.
    - apply IH; lia. }
  apply Hgen; lia.
Qed.

(** ** The further properties on small inputs *)

Lemma failing_cryptor_fills : RandomBytes_fills failing_cryptor.
Proof. intros n r st bs r1 Hcall Hst. simpl in Hcall. congruence. Qed.

Lemma EncryptBlock_preserves_wf_witness :
  RandomBytes_fills (const_cryptor Byte.xff)
  /\ block_wf small_defs sample_block
  /\ exists b' r',
       EncryptBlock small_defs (const_cryptor Byte.xff) sample_block tt
         = Ret (b', r')
       /\ block_wf small_defs b'.
Proof.
  split; [apply const_cryptor_fills|]. split; [apply sample_block_wf|].
  eexists _, _. split; [vm_compute; reflexivity|].
  apply (EncryptBlock_preserves_wf small_defs (const_cryptor Byte.xff)
           sample_block _ tt tt (const_cryptor_fills _) sample_block_wf).
  vm_compute. reflexivity.
Defined.

Lemma DecryptBlock_preserves_wf_witness :
  block_wf small_defs sample_block
  /\ exists b',
       DecryptBlock small_defs (fixed_length_cryptor 2) sample_block = Ret b'
       /\ block_wf small_defs b'.
Proof.
  split; [apply sample_block_wf|].
  eexists. split; [vm_compute; reflexivity|].
  apply (DecryptBlock_preserves_wf small_defs (fixed_length_cryptor 2)
           sample_block _ sample_block_wf).
  vm_compute. reflexivity.
Defined.

Lemma EncryptBlock_undefined_iff_witness :
  type (header sample_block) = kNormal small_defs
  /\ RandomBytes (fixed_length_cryptor 3) 12 tt
     = ((kOK, replicate 12 Byte.x00), tt)
  /\ Encrypt (fixed_length_cryptor 3) (data sample_block)
       (DEFAULT_ORAM_DATA_SIZE small_defs)
       (memcpy (iv (header sample_block)) (replicate 12 Byte.x00) 12)
     = (kOK, replicate 3 Byte.x00)
  /\ EncryptBlock small_defs (fixed_length_cryptor 3) sample_block tt
     = Undefined.
Proof.
  split; [reflexivity|]. split; [reflexivity|]. split; [reflexivity|].
  apply (proj2 (EncryptBlock_undefined_iff small_defs (fixed_length_cryptor 3)
                  sample_block tt tt (replicate 12 Byte.x00)
                  (replicate 3 Byte.x00) eq_refl eq_refl eq_refl)).
  left. simpl. lia.
Defined.

Lemma EncryptBlock_places_ciphertext_witness :
  block_wf small_defs sample_block
  /\ type (header sample_block) = kNormal small_defs
  /\ RandomBytes (fixed_length_cryptor 18) 12 tt
     = ((kOK, replicate 12 Byte.x00), tt)
  /\ Encrypt (fixed_length_cryptor 18) (data sample_block)
       (DEFAULT_ORAM_DATA_SIZE small_defs)
       (memcpy (iv (header sample_block)) (replicate 12 Byte.x00) 12)
     = (kOK, replicate 18 Byte.x00)
  /\ (16 <= length (replicate 18 Byte.x00)
      <= DEFAULT_ORAM_DATA_SIZE small_defs + 16)%nat
  /\ exists b',
       EncryptBlock small_defs (fixed_length_cryptor 18) sample_block tt
         = Ret (b', tt)
       /\ data b' = [Byte.x00; Byte.x00; Byte.x0c; Byte.x0d].
Proof.
  assert (Hlen : (16 <= length (replicate 18 Byte.x00)
                  <= DEFAULT_ORAM_DATA_SIZE small_defs + 16)%nat)
    by (simpl; lia).
  split; [apply sample_block_wf|]. split; [reflexivity|].
  split; [reflexivity|]. split; [reflexivity|]. split; [exact Hlen|].
  destruct (EncryptBlock_places_ciphertext small_defs (fixed_length_cryptor 18)
              sample_block tt tt (replicate 12 Byte.x00)
              (replicate 18 Byte.x00) sample_block_wf eq_refl eq_refl eq_refl
              Hlen) as (b' & He & _ & _ & Hdata & _).
  exists b'. split; [exact He|]. exact Hdata.
Defined.

Lemma DecryptBlock_outcome_witness :
  block_wf small_defs sample_block
  /\ type (header sample_block) = kNormal small_defs
  /\ DecryptBlock small_defs (const_cryptor Byte.xff) sample_block
     = Abort "Failed to decrypt data!".
Proof.
  split; [apply sample_block_wf|]. split; [reflexivity|].
  rewrite (DecryptBlock_outcome small_defs (const_cryptor Byte.xff)
             sample_block sample_block_wf eq_refl).
  vm_compute. reflexivity.
Defined.

Lemma PadStash_length_prefix_witness :
  exists stash' r',
    PadStash small_defs (const_cryptor Byte.x07) (zero_block small_defs)
      [sample_block] 3 tt = Ret (stash', r')
    /\ length stash' = 3%nat
    /\ take 1 stash' = [sample_block].
Proof.
  eexists _, _. split; [vm_compute; reflexivity|].
  refine (let H := PadStash_length_prefix small_defs (const_cryptor Byte.x07)
                     (zero_block small_defs) [sample_block] _ 3 tt tt _ in
          conj (proj1 H) (proj1 (proj2 H))).
  vm_compute. reflexivity.
Defined.

Lemma PadStash_idempotent_witness :
  exists stash' r',
    PadStash small_defs (const_cryptor Byte.x07) (zero_block small_defs)
      [sample_block] 3 tt = Ret (stash', r')
    /\ (2 <= 3)%nat
    /\ PadStash small_defs (const_cryptor Byte.x07) (zero_block small_defs)
         stash' 2 r' = Ret (stash', r').
Proof.
  eexists _, _. split; [vm_compute; reflexivity|]. split; [lia|].
  apply (PadStash_idempotent small_defs (const_cryptor Byte.x07)
           (zero_block small_defs) [sample_block] _ 3 2 tt tt);
    [vm_compute; reflexivity|lia].
Defined.

Lemma PadStash_aborts_on_random_failure_witness :
  (length [sample_block] < 2)%nat
  /\ fst (fst (RandomBytes failing_cryptor (ORAM_BLOCK_SIZE small_defs) tt))
     <> kOK
  /\ PadStash small_defs failing_cryptor (zero_block small_defs)
       [sample_block] 2 tt = Abort "Failed to generate random bytes".
Proof.
  assert (Hlt : (length [sample_block] < 2)%nat) by (simpl; lia).
  assert (Hfail : fst (fst (RandomBytes failing_cryptor
                              (ORAM_BLOCK_SIZE small_defs) tt)) <> kOK)
    by discriminate.
  split; [exact Hlt|]. split; [exact Hfail|].
  exact (PadStash_aborts_on_random_failure small_defs failing_cryptor
           (zero_block small_defs) [sample_block] 2 tt Hlt Hfail).
Defined.

Lemma PadStash_padding_is_random_witness :
  RandomBytes_fills (const_cryptor Byte.x07)
  /\ exists stash' r',
       PadStash small_defs (const_cryptor Byte.x07) (zero_block small_defs)
         [sample_block] 2 tt = Ret (stash', r')
       /\ Forall (fun b =>
                    block_wf small_defs b
                    /\ drawn_from_random_source (const_cryptor Byte.x07)
                         (ORAM_BLOCK_SIZE small_defs)
                         (ConvertToString small_defs b []))
                 (drop 1 stash').
Proof.
  split; [apply const_cryptor_fills|].
  eexists _, _. split; [vm_compute; reflexivity|].
  apply (PadStash_padding_is_random small_defs (const_cryptor Byte.x07)
           (zero_block small_defs) [sample_block] _ 2 tt tt
           (const_cryptor_fills _)).
  vm_compute. reflexivity.
Defined.

Lemma SampleRandomBucket_dummy_count_witness :
  kNormal small_defs <> kDummy small_defs
  /\ RandomShuffle_permutes (const_cryptor Byte.xff)
  /\ exists bucket r',
       SampleRandomBucket small_defs (const_cryptor Byte.xff)
         (zero_block small_defs) 4 5 100 tt = Ret (bucket, r')
       /\ count_type (kDummy small_defs) bucket = 3%nat.
Proof.
  assert (Hneq : kNormal small_defs <> kDummy small_defs) by done.
  split; [exact Hneq|]. split; [apply const_cryptor_permutes|].
  eexists _, _. split; [vm_compute; reflexivity|].
  refine (proj2 (SampleRandomBucket_dummy_count small_defs
                   (const_cryptor Byte.xff) (zero_block small_defs)
                   4 5 100 tt tt _ Hneq (const_cryptor_permutes _) _)).
  vm_compute. reflexivity.
Defined.

Lemma SampleRandomBucket_all_ids_witness :
  RandomShuffle_permutes (const_cryptor Byte.xff)
  /\ 100 + 3 <= 2 ^ 32
  /\ exists bucket r',
       SampleRandomBucket small_defs (const_cryptor Byte.xff)
         (zero_block small_defs) 4 3 100 tt = Ret (bucket, r')
       /\ NoDup ((fun b => block_id (header b)) <$> bucket).
Proof.
  assert (Hwrap : 100 + 3 <= 2 ^ 32) by (vm_compute; discriminate).
  split; [apply const_cryptor_permutes|]. split; [exact Hwrap|].
  eexists _, _. split; [vm_compute; reflexivity|].
  refine (proj2 (SampleRandomBucket_all_ids small_defs
                   (const_cryptor Byte.xff) (zero_block small_defs)
                   4 3 100 tt tt _ (const_cryptor_permutes _) Hwrap _)).
  vm_compute. reflexivity.
Defined.

Lemma SampleRandomBucket_header_untouched_witness :
  RandomBytes_fills (const_cryptor Byte.xff)
  /\ RandomShuffle_permutes (const_cryptor Byte.xff)
  /\ block_wf small_defs sample_block
  /\ exists bucket r',
       SampleRandomBucket small_defs (const_cryptor Byte.xff)
         sample_block 4 3 100 tt = Ret (bucket, r')
       /\ Forall (fun b =>
                    iv (header b) = iv (header sample_block)
                    /\ mac_tag (header b) = mac_tag (header sample_block)
                    /\ block_wf small_defs b) bucket.
Proof.
  split; [apply const_cryptor_fills|]. split; [apply const_cryptor_permutes|].
  split; [apply sample_block_wf|].
  eexists _, _. split; [vm_compute; reflexivity|].
  apply (SampleRandomBucket_header_untouched small_defs
           (const_cryptor Byte.xff) sample_block 4 3 100 tt tt _
           (const_cryptor_fills _) (const_cryptor_permutes _)
           sample_block_wf).
  vm_compute. reflexivity.
Defined.

Lemma SampleRandomBucket_aborts_witness :
  SampleRandomBucket small_defs failing_cryptor (zero_block small_defs)
    4 3 100 tt = Abort "Failed to generate random bytes"
  /\ SampleRandomBucket small_defs failing_cryptor (zero_block small_defs)
       4 0 100 tt = Abort "Random shuffle failed due to internal error.".
Proof.
  split.
  - apply (proj1 (SampleRandomBucket_aborts small_defs failing_cryptor
                    (zero_block small_defs) 4 3 100 tt));
      [reflexivity|discriminate].
  - apply (proj2 (SampleRandomBucket_aborts small_defs failing_cryptor
                    (zero_block small_defs) 4 0 100 tt));
      [reflexivity|discriminate].
Defined.

Lemma SampleRandomBucket_normal_payload_witness :
  RandomBytes_fills (const_cryptor Byte.xff)
  /\ RandomShuffle_permutes (const_cryptor Byte.xff)
  /\ block_wf small_defs (zero_block small_defs)
  /\ (0 < DEFAULT_ORAM_DATA_SIZE small_defs)%nat
  /\ exists b r',
       SampleRandomBucket small_defs (const_cryptor Byte.xff)
         (zero_block small_defs) 2 1 7 tt = Ret ([b], r')
       /\ type (header b) = kNormal small_defs
       /\ data b !! 0%nat = Some (byte_of_N (block_id (header b))).
Proof.
  assert (Hpos : (0 < DEFAULT_ORAM_DATA_SIZE small_defs)%nat) by (simpl; lia).
  split; [apply const_cryptor_fills|]. split; [apply const_cryptor_permutes|].
  split; [apply zero_block_wf|]. split; [exact Hpos|].
  eexists _, _. split; [vm_compute; reflexivity|]. split; [reflexivity|].
  match goal with
  | |- data ?b !! 0%nat = _ =>
      apply (fun Hs =>
               proj1 (SampleRandomBucket_normal_payload small_defs
                        (const_cryptor Byte.xff) (zero_block small_defs)
                        2 1 7 tt tt [b] (const_cryptor_fills _)
                        (const_cryptor_permutes _) (zero_block_wf _) Hpos Hs
                        b (list_elem_of_here _ _) eq_refl))
  end.
  vm_compute. reflexivity.
Defined.

Lemma DataCompress_returns_witness :
  LZ4_contract run_codec
  /\ (Z.of_nat (length (data sample_block)) <= LZ4_MAX_INPUT_SIZE)%Z
  /\ exists z,
       DataCompress run_codec (data sample_block) 4
         = Ret (N.of_nat (length z), z)
       /\ (1 <= Z.of_nat (length z) <= LZ4_compressBound 4)%Z.
Proof.
  assert (Hmax : (Z.of_nat (length (data sample_block))
                  <= LZ4_MAX_INPUT_SIZE)%Z) by (vm_compute; discriminate).
  split; [apply run_codec_contract|]. split; [exact Hmax|].
  exact (DataCompress_returns run_codec (data sample_block)
           run_codec_contract Hmax).
Defined.

Lemma DataDecompress_DataCompress_when_capacity_suffices_witness :
  LZ4_contract run_codec
  /\ (0 < length (data sample_block))%nat
  /\ (Z.of_nat (length (data sample_block)) <= LZ4_MAX_INPUT_SIZE)%Z
  /\ DataCompress run_codec (data sample_block) 4
     = Ret (5, [Byte.x01; Byte.x0a; Byte.x0b; Byte.x0c; Byte.x0d])
  /\ 4 <= 2 * 5
  /\ 2 * 5 < 2 ^ 31
  /\ DataDecompress run_codec
       [Byte.x01; Byte.x0a; Byte.x0b; Byte.x0c; Byte.x0d] 5
     = Ret (4, data sample_block).
Proof.
  assert (Hpos : (0 < length (data sample_block))%nat) by (simpl; lia).
  assert (Hmax : (Z.of_nat (length (data sample_block))
                  <= LZ4_MAX_INPUT_SIZE)%Z) by (vm_compute; discriminate).
  assert (Hc : DataCompress run_codec (data sample_block) 4
               = Ret (5, [Byte.x01; Byte.x0a; Byte.x0b; Byte.x0c; Byte.x0d]))
    by (vm_compute; reflexivity).
  assert (H1 : 4 <= 2 * 5) by (vm_compute; discriminate).
  assert (H2 : 2 * 5 < 2 ^ 31) by reflexivity.
  split; [apply run_codec_contract|]. split; [exact Hpos|].
  split; [exact Hmax|]. split; [exact Hc|]. split; [exact H1|].
  split; [exact H2|].
  exact (DataDecompress_DataCompress_when_capacity_suffices run_codec
           (data sample_block) _ 5 run_codec_contract Hpos Hmax Hc H1 H2).
Defined.

Lemma DataDecompress_fatal_iff_zero_witness :
  LZ4_decompress_safe run_codec [Byte.x07] (to_int 1)
    (to_int (to_size_t (1 * 2))) = ((-1)%Z, [])
  /\ (- 2 ^ 31 <= -1 < 2 ^ 31)%Z
  /\ DataDecompress run_codec [Byte.x07] 1
     = Ret (Z.to_N (2 ^ 64 + -1), []).
Proof.
  assert (Hcall : LZ4_decompress_safe run_codec [Byte.x07] (to_int 1)
                    (to_int (to_size_t (1 * 2))) = ((-1)%Z, []))
    by (vm_compute; reflexivity).
  assert (He : (- 2 ^ 31 <= -1 < 2 ^ 31)%Z) by lia.
  split; [exact Hcall|]. split; [exact He|].
  apply (proj2 (proj2 (DataDecompress_fatal_iff_zero run_codec [Byte.x07] []
                         1 (-1) Hcall He))).
  lia.
Defined.

Lemma DataDecompress_aborts_on_empty_payload_witness :
  LZ4_contract run_codec
  /\ DataCompress run_codec [] 0
     = Ret (5, [Byte.x00; Byte.x00; Byte.x00; Byte.x00; Byte.x00])
  /\ DataDecompress run_codec
       [Byte.x00; Byte.x00; Byte.x00; Byte.x00; Byte.x00] 5
     = Abort "Failed to decompress data!".
Proof.
  assert (Hc : DataCompress run_codec [] 0
               = Ret (5, [Byte.x00; Byte.x00; Byte.x00; Byte.x00; Byte.x00]))
    by (vm_compute; reflexivity).
  split; [apply run_codec_contract|]. split; [exact Hc|].
  exact (DataDecompress_aborts_on_empty_payload run_codec _ 5
           run_codec_contract Hc).
Defined.

Lemma SafeFreeAll_releases_witness :
  (3 <= length [5; 0; 7])%nat
  /\ NoDup (filter (fun p => p <> nullptr) (take 3 [5; 0; 7]))
  /\ (forall p, p ∈ take 3 [5; 0; 7] -> p <> nullptr ->
        p ∈ ({[5; 7; 9]} : gset N))
  /\ SafeFreeAll 3 [5; 0; 7] ({[5; 7; 9]}, [])
     = Ret ({[5; 7; 9]} ∖ list_to_set [5; 7], ["Failed to free nullptr"]).
Proof.
  assert (Hlen : (3 <= length [5; 0; 7])%nat) by (simpl; lia).
  assert (Hnd : NoDup (filter (fun p => p <> nullptr) (take 3 [5; 0; 7]))).
  { apply (NoDup_cons_2 5 [7]); [|apply NoDup_singleton].
    rewrite list_elem_of_singleton. discriminate. }
  assert (Hlive : forall p, p ∈ take 3 [5; 0; 7] -> p <> nullptr ->
                    p ∈ ({[5; 7; 9]} : gset N)).
  { intros p Hin Hp. simpl in Hin.
    rewrite !elem_of_cons in Hin. rewrite !elem_of_union, !elem_of_singleton.
    destruct Hin as [->|[->|[->|Hin]]]; [by left; left|done|by left; right|].
    by apply elem_of_nil in Hin. }
  split; [exact Hlen|]. split; [exact Hnd|]. split; [exact Hlive|].
  exact (SafeFreeAll_releases 3 [5; 0; 7] {[5; 7; 9]} [] Hlen Hnd Hlive).
Defined.

Lemma SafeFreeAll_wild_pointer_witness :
  4 <> nullptr
  /\ (4 ∈ take 2 [5; 4])
  /\ (4 ∉ ({[5]} : gset N))
  /\ SafeFreeAll 2 [5; 4] ({[5]}, []) = Undefined.
Proof.
  assert (Hp : 4 <> nullptr) by discriminate.
  assert (Hin : 4 ∈ take 2 [5; 4]).
  { simpl. apply elem_of_cons. right. apply list_elem_of_here. }
  assert (Hnot : 4 ∉ ({[5]} : gset N)).
  { rewrite elem_of_singleton. discriminate. }
  split; [exact Hp|]. split; [exact Hin|]. split; [exact Hnot|].
  exact (SafeFreeAll_wild_pointer 2 [5; 4] 4 {[5]} [] Hp Hin Hnot).
Defined.

Lemma SafeFreeAll_double_free_witness :
  5 <> nullptr
  /\ (0 < 1 < 2)%nat
  /\ SafeFreeAll 2 [5; 5] ({[5]}, []) = Undefined.
Proof.
  assert (Hp : 5 <> nullptr) by discriminate.
  assert (Hij : (0 < 1 < 2)%nat) by lia.
  split; [exact Hp|]. split; [exact Hij|].
  exact (SafeFreeAll_double_free 2 [5; 5] 5 0 1 {[5]} [] Hp Hij
           eq_refl eq_refl).
Defined.

Lemma SafeFreeAll_too_few_arguments_witness :
  (length [5] < 2)%nat
  /\ SafeFreeAll 2 [5] ({[5]}, []) = Undefined.
Proof.
  assert (Hlen : (length [5] < 2)%nat) by (simpl; lia).
  split; [exact Hlen|].
  exact (SafeFreeAll_too_few_arguments 2 [5] ({[5]}, []) Hlen).
Defined.
